(** * The Go handbook's programs: greeting, parity, and the worker fan-in

    A shallow embedding of the two Go programs of the handbook:

    - [main.go]: [greet], [isEven] and [main] with its number-checking
      loop;
    - the "Language Overview" program: [worker] goroutines that send one
      string each on a buffered channel, a goroutine that waits on the
      [sync.WaitGroup] and closes the channel, and [main] ranging over the
      channel.

    Strings are Go strings (byte sequences); [int] is a 64-bit two's
    complement integer carried in [Z], with the wrap-around of [i++] written
    out, and so is the 32-bit counter of a wait group.  The concurrent
    program is a labelled step function on an explicit state: a schedule is
    the list of goroutines the scheduler picks, a blocked goroutine is one
    whose step is undefined, and a run is a schedule whose steps are all
    defined. *)

From Stdlib Require Import ZArith String Ascii List Lia.
From Stdlib Require Import Decimal DecimalString DecimalZ DecimalPos.
From stdpp Require Import base list.

Open Scope Z_scope.

(** String concatenation, kept apart from the [++] of lists. *)
Infix "+:+" := String.append (at level 60, right associativity) : string_scope.

(** * Part I: the programs *)

(** ** Machine integers *)

Module GoInt.

Definition min_int : Z := - 2 ^ 63.
Definition max_int : Z := 2 ^ 63 - 1.

Definition in_range (z : Z) : Prop := min_int <= z <= max_int.

(** Two's complement reduction of an unbounded result into [int]. *)
Definition wrap (z : Z) : Z := (z + 2 ^ 63) mod 2 ^ 64 - 2 ^ 63.

(** [i++] *)
Definition incr (i : Z) : Z := wrap (i + 1).

(** [a % b] for [b <> 0]: the remainder has the sign of the dividend. *)
Definition rem (a b : Z) : Z := wrap (Z.rem a b).

(** The same for [int32], the type of the counter of a wait group. *)
Definition max_int32 : Z := 2 ^ 31 - 1.

Definition wrap32 (z : Z) : Z := (z + 2 ^ 31) mod 2 ^ 32 - 2 ^ 31.

End GoInt.

(** ** The fragment of package [fmt] the programs use *)

Module Fmt.

Local Open Scope string_scope.
Local Open Scope list_scope.

(** Operands of a formatting call: the programs pass strings, ints and
    one slice of ints. *)
Inductive arg : Type :=
| AStr (s : string)
| AInt (n : Z)
| AInts (l : list Z).

(** The line feed that Go writes for ["\n"]. *)
Definition nl : string := String (ascii_of_nat 10) EmptyString.

(** A text followed by a line feed. *)
Definition line (s : string) : string := s +:+ nl.

(** [%d] on an int: decimal digits, a leading minus sign when negative. *)
Definition fmt_d (n : Z) : string := NilZero.string_of_int (Z.to_int n).

(** Texts separated by [sep]. *)
Fixpoint join (sep : string) (l : list string) : string :=
  match l with
  | [] => EmptyString
  | [s] => s
  | s :: rest => s +:+ sep +:+ join sep rest
  end.

Definition arg_type (a : arg) : string :=
  match a with
  | AStr _ => "string"
  | AInt _ => "int"
  | AInts _ => "[]int"
  end.

(** The default format [%v] of an operand. *)
Definition arg_value (a : arg) : string :=
  match a with
  | AStr s => s
  | AInt n => fmt_d n
  | AInts l => "[" +:+ join " " (map fmt_d l) +:+ "]"
  end.

(** What [fmt] prints for a verb that does not apply to its operand, as
    for [%s] on an int or [%d] on a string. *)
Definition bad_verb (v : ascii) (a : arg) : string :=
  "%!" +:+ String v ("(" +:+ arg_type a +:+ "=" +:+ arg_value a +:+ ")").

(** One verb applied to one operand.  The programs use [%s] on strings
    and [%d] on ints; [%d] on a slice of ints formats each element, and
    [%v] is the default format.  No other verb occurs in the programs; they
    are all given the marker of a verb that does not apply. *)
Definition fmt_verb (v : ascii) (a : arg) : string :=
  match v, a with
  | "s"%char, AStr s => s
  | "d"%char, AInt n => fmt_d n
  | "d"%char, AInts l => arg_value a
  | "v"%char, _ => arg_value a
  | _, _ => bad_verb v a
  end.

Fixpoint extra_list (args : list arg) : string :=
  match args with
  | [] => EmptyString
  | [a] => arg_type a +:+ "=" +:+ arg_value a
  | a :: rest => arg_type a +:+ "=" +:+ arg_value a +:+ ", " +:+ extra_list rest
  end.

(** Operands left over when the format is exhausted. *)
Definition extra (args : list arg) : string :=
  match args with
  | [] => EmptyString
  | _ => "%!(EXTRA " +:+ extra_list args +:+ ")"
  end.

(** [fmt.Sprintf(format, args...)].  Operands are consumed left to right,
    one per verb, and are never rescanned for verbs. *)
Fixpoint Sprintf (format : string) (args : list arg) : string :=
  match format with
  | EmptyString => extra args
  | String "%" EmptyString => "%!(NOVERB)" +:+ extra args
  | String "%" (String "%" rest) => String "%" (Sprintf rest args)
  | String "%" (String v rest) =>
      match args with
      | [] => "%!" +:+ String v ("(MISSING)" +:+ Sprintf rest [])
      | a :: args' => fmt_verb v a +:+ Sprintf rest args'
      end
  | String c rest => String c (Sprintf rest args)
  end.

(** Standard output as the sequence of writes made so far. *)
Definition stdout : Type := list string.

(** [fmt.Printf(format, args...)]: one write of the formatted text. *)
Definition Printf (format : string) (args : list arg) (out : stdout) : stdout :=
  out ++ [Sprintf format args].

(** [fmt.Println(args...)]: the operands in their default format with a
    space between them, and a line feed, in one write. *)
Definition Println (args : list arg) (out : stdout) : stdout :=
  out ++ [line (join " " (map arg_value args))].

End Fmt.

(** ** [main.go] *)

Module Handbook.

Import Fmt.
Local Open Scope string_scope.
Local Open Scope list_scope.

(** [func greet(name string) string] *)
Definition greet (name : string) : string :=
  let name := if String.eqb name EmptyString then "World" else name in
  Sprintf "Hello, %s!" [AStr name].

(** [func isEven(n int) bool] *)
Definition isEven (n : Z) : bool := (GoInt.rem n 2 =? 0)%Z.

(** The body of the number-checking loop of [main]. *)
Definition check_number (i : Z) (out : stdout) : stdout :=
  if isEven i
  then Printf ("%d is even" +:+ nl) [AInt i] out
  else Printf ("%d is odd" +:+ nl) [AInt i] out.

(** [for ; i <= 5; i++ { ... }] from the current [i].  The recursion is on
    a bound on the number of loop tests; [None] means the bound was too
    small. *)
Fixpoint check_numbers (fuel : nat) (i : Z) (out : stdout) : option stdout :=
  match fuel with
  | O => None
  | S fuel =>
      if (i <=? 5)%Z
      then check_numbers fuel (GoInt.incr i) (check_number i out)
      else Some out
  end.

(** The map literal of [main], as its entries. *)
Definition colors : list (string * string) :=
  [("red", "#ff0000"); ("green", "#00ff00"); ("blue", "#0000ff")].

(** [for name, hex := range colors { ... }], visiting the entries in the
    order [visit] the runtime picks. *)
Fixpoint print_colors (visit : list (string * string)) (out : stdout) : stdout :=
  match visit with
  | [] => out
  | (name, hex) :: visit =>
      print_colors visit (Printf ("%s: %s" +:+ nl) [AStr name; AStr hex] out)
  end.

(** [func main()].  Go does not fix the order in which [range] visits a
    map; [visit] is the order of this run, a permutation of [colors]. *)
Definition main (fuel : nat) (visit : list (string * string)) : option stdout :=
  let message := greet "Gopher" in
  let out := Println [AStr message] [] in
  let out := Println [AStr (nl +:+ "Checking numbers from 1 to 5:")] out in
  match check_numbers fuel 1 out with
  | None => None
  | Some out =>
      let numbers := [1; 2; 3; 4; 5]%Z in
      let out := Println [AStr (nl +:+ "Numbers:"); AInts numbers] out in
      let out := Println [AStr (nl +:+ "Colors:")] out in
      Some (print_colors visit out)
  end.

End Handbook.

(** ** The "Language Overview" program: workers, wait group, channel *)

Module Overview.

Import Fmt.
Local Open Scope string_scope.
Local Open Scope list_scope.

(** *** Channels of strings *)

(** [make(chan string, cap)]: the buffer in arrival order and the closed
    flag.  The capacity is fixed at creation and is a parameter of the
    operations below. *)
Record chan : Type := Chan {
  ch_buf : list string;
  ch_closed : bool
}.

Definition make_chan : chan := Chan [] false.

(** What an operation that may block or panic does when it is scheduled. *)
Inductive outcome (A : Type) : Type :=
| Ok (a : A)
| Blocked
| Panic.
Arguments Ok {A} a.
Arguments Blocked {A}.
Arguments Panic {A}.

(** [ch <- v].  Sending on a closed channel panics.  With room in the
    buffer the value is queued.  On a channel without buffer the value is
    handed to the receiver when it waits ([receiver_waits]); the value
    handed over is the second component.  Otherwise the sender blocks. *)
Definition chan_send (cap : nat) (receiver_waits : bool) (v : string) (c : chan)
  : outcome (chan * option string) :=
  if ch_closed c then Panic
  else if (length (ch_buf c) <? cap)%nat then Ok (Chan (ch_buf c ++ [v]) false, None)
  else if (cap =? 0)%nat && receiver_waits then Ok (c, Some v)
  else Blocked.

(** One iteration test of [for msg := range ch]: the next buffered value
    if any, the end of the loop ([None]) once the channel is closed and
    drained, and blocking otherwise. *)
Definition chan_range (c : chan) : outcome (chan * option string) :=
  match ch_buf c with
  | v :: rest => Ok (Chan rest (ch_closed c), Some v)
  | [] => if ch_closed c then Ok (c, None) else Blocked
  end.

(** [close(ch)]: closing a closed channel panics. *)
Definition chan_close (c : chan) : outcome chan :=
  if ch_closed c then Panic else Ok (Chan (ch_buf c) true).

(** *** The wait group counter *)

(** [wg.Add(delta)]: the counter is an [int32]; a negative counter
    panics. *)
Definition wg_add (delta : Z) (wg : Z) : outcome Z :=
  let v := GoInt.wrap32 (wg + delta) in
  if (v <? 0)%Z then Panic else Ok v.

(** [wg.Done()] *)
Definition wg_done (wg : Z) : outcome Z := wg_add (-1) wg.

(** [wg.Wait()]: returns once the counter is zero. *)
Definition wg_wait (wg : Z) : outcome unit :=
  if (wg =? 0)%Z then Ok tt else Blocked.

(** *** Goroutines *)

(** The text a worker sends. *)
Definition worker_msg (id : Z) : string :=
  Sprintf "Worker %d completed task" [AInt id].

(** Where [main] stands: at the loop test with [i] (followed, inside the
    loop, by [wg.Add(1)]), at [go worker(i, messages, &wg)], at the [go]
    statement of the closing goroutine, at the range loop, or returned. *)
Inductive main_pc : Type :=
| MLoop (i : Z)
| MGo (i : Z)
| MGoCloser
| MRange
| MExit.

(** Where a worker stands: at its send, at the deferred [wg.Done()], or
    returned. *)
Inductive worker_pc : Type :=
| WSend
| WDone
| WExit.

(** Where the closing goroutine stands: not started, at [wg.Wait()], at
    [close(messages)], or returned. *)
Inductive closer_pc : Type :=
| CNone
| CWait
| CClose
| CExit.

(** The program state.  [st_workers] lists the workers in the order they
    were started, each with its [id].  [st_sent] is a history variable: the
    identifiers in the order their sends completed; no step reads it. *)
Record state : Type := State {
  st_main : main_pc;
  st_workers : list (Z * worker_pc);
  st_closer : closer_pc;
  st_ch : chan;
  st_wg : Z;
  st_stdout : stdout;
  st_panic : bool;
  st_sent : list Z
}.

Definition set_main (pc : main_pc) (s : state) : state :=
  State pc (st_workers s) (st_closer s) (st_ch s) (st_wg s) (st_stdout s)
        (st_panic s) (st_sent s).

Definition set_workers (ws : list (Z * worker_pc)) (s : state) : state :=
  State (st_main s) ws (st_closer s) (st_ch s) (st_wg s) (st_stdout s)
        (st_panic s) (st_sent s).

Definition set_closer (pc : closer_pc) (s : state) : state :=
  State (st_main s) (st_workers s) pc (st_ch s) (st_wg s) (st_stdout s)
        (st_panic s) (st_sent s).

Definition set_ch (c : chan) (s : state) : state :=
  State (st_main s) (st_workers s) (st_closer s) c (st_wg s) (st_stdout s)
        (st_panic s) (st_sent s).

Definition set_wg (wg : Z) (s : state) : state :=
  State (st_main s) (st_workers s) (st_closer s) (st_ch s) wg (st_stdout s)
        (st_panic s) (st_sent s).

Definition set_stdout (out : stdout) (s : state) : state :=
  State (st_main s) (st_workers s) (st_closer s) (st_ch s) (st_wg s) out
        (st_panic s) (st_sent s).

Definition set_sent (l : list Z) (s : state) : state :=
  State (st_main s) (st_workers s) (st_closer s) (st_ch s) (st_wg s)
        (st_stdout s) (st_panic s) l.

(** A panic that is not recovered. *)
Definition panic (s : state) : state :=
  State (st_main s) (st_workers s) (st_closer s) (st_ch s) (st_wg s)
        (st_stdout s) true (st_sent s).

(** The goroutine the scheduler runs next; workers are numbered from 0 in
    the order they were started. *)
Inductive label : Type :=
| LMain
| LWorker (k : nat)
| LCloser.

(** [main] waits in its range loop. *)
Definition at_range (s : state) : bool :=
  match st_main s with
  | MRange => true
  | _ => false
  end.

(** [main] before its loop: [var wg sync.WaitGroup],
    [messages := make(chan string, cap)], [i := 1]. *)
Definition init : state :=
  State (MLoop 1) [] CNone make_chan 0 [] false [].

Section Program.

(** The handbook starts 3 workers on a channel of capacity 3; the loop
    bound [n] and the capacity [cap] are parameters here, and [handbook_step]
    below is the program as printed. *)
Variable n : Z.
Variable cap : nat.

(** One step of [func main()]. *)
Definition main (s : state) : option state :=
  match st_main s with
  | MLoop i =>
      if (i <=? n)%Z
      then match wg_add 1 (st_wg s) with
           | Ok wg => Some (set_main (MGo i) (set_wg wg s))
           | Blocked => None
           | Panic => Some (panic s)
           end
      else Some (set_main MGoCloser s)
  | MGo i =>
      Some (set_main (MLoop (GoInt.incr i))
              (set_workers (st_workers s ++ [(i, WSend)]) s))
  | MGoCloser =>
      Some (set_main MRange (set_closer CWait s))
  | MRange =>
      match chan_range (st_ch s) with
      | Ok (c, Some msg) =>
          Some (set_stdout (Println [AStr msg] (st_stdout s)) (set_ch c s))
      | Ok (c, None) => Some (set_main MExit (set_ch c s))
      | Blocked => None
      | Panic => Some (panic s)
      end
  | MExit => None
  end.

(** One step of [func worker(id, ch, wg)], for the worker started [k]-th.
    A message handed over to the waiting [main] is printed by [main] in the
    same step. *)
Definition worker (k : nat) (s : state) : option state :=
  match st_workers s !! k with
  | Some (id, WSend) =>
      match chan_send cap (at_range s) (worker_msg id) (st_ch s) with
      | Ok (c, handed) =>
          let s' := set_sent (st_sent s ++ [id])
                      (set_workers (<[k := (id, WDone)]> (st_workers s))
                         (set_ch c s)) in
          match handed with
          | Some msg => Some (set_stdout (Println [AStr msg] (st_stdout s')) s')
          | None => Some s'
          end
      | Blocked => None
      | Panic => Some (panic s)
      end
  | Some (id, WDone) =>
      match wg_done (st_wg s) with
      | Ok wg => Some (set_workers (<[k := (id, WExit)]> (st_workers s)) (set_wg wg s))
      | Blocked => None
      | Panic => Some (panic s)
      end
  | Some (_, WExit) | None => None
  end.

(** One step of the goroutine [func() { wg.Wait(); close(messages) }]. *)
Definition closer (s : state) : option state :=
  match st_closer s with
  | CNone => None
  | CWait =>
      match wg_wait (st_wg s) with
      | Ok _ => Some (set_closer CClose s)
      | _ => None
      end
  | CClose =>
      match chan_close (st_ch s) with
      | Ok c => Some (set_closer CExit (set_ch c s))
      | Blocked => None
      | Panic => Some (panic s)
      end
  | CExit => None
  end.

(** One scheduler step: [None] when the chosen goroutine cannot move.  A
    panic stops the whole program. *)
Definition step (l : label) (s : state) : option state :=
  if st_panic s then None
  else match l with
       | LMain => main s
       | LWorker k => worker k s
       | LCloser => closer s
       end.

(** A schedule run from a state. *)
Fixpoint run (sched : list label) (s : state) : option state :=
  match sched with
  | [] => Some s
  | l :: sched =>
      match step l s with
      | Some s' => run sched s'
      | None => None
      end
  end.

End Program.

(** The program as the handbook prints it: [i <= 3] and
    [make(chan string, 3)]. *)
Definition handbook_step : label -> state -> option state := step 3 3.
Definition handbook_run : list label -> state -> option state := run 3 3.

End Overview.

(** ** The functions of the handbook's "Functions" section *)

Module Functions.

Import Fmt.
Local Open Scope string_scope.
Local Open Scope list_scope.

(** [func multiply(a, b int) int] *)
Definition multiply (a b : Z) : Z := GoInt.wrap (a * b).

(** A Go [error]: [None] is [nil], [Some msg] an error with that message. *)
Definition error : Type := option string.

(** [fmt.Errorf(format, args...)] *)
Definition Errorf (format : string) (args : list arg) : error :=
  Some (Sprintf format args).

(** What [strings.ToUpper] does on a string of ASCII bytes: the letters
    [a] to [z] become [A] to [Z], byte by byte. *)
Definition is_lower (c : ascii) : bool :=
  (97 <=? nat_of_ascii c)%nat && (nat_of_ascii c <=? 122)%nat.

Definition upper_byte (c : ascii) : ascii :=
  if is_lower c then ascii_of_nat (nat_of_ascii c - 32) else c.

Fixpoint upper_ascii (s : string) : string :=
  match s with
  | EmptyString => EmptyString
  | String c rest => String (upper_byte c) (upper_ascii rest)
  end.

(** Some byte is a letter from [a] to [z]. *)
Fixpoint has_lower (s : string) : bool :=
  match s with
  | EmptyString => false
  | String c rest => is_lower c || has_lower rest
  end.

(** Every byte is below [utf8.RuneSelf]. *)
Fixpoint is_ascii (s : string) : bool :=
  match s with
  | EmptyString => true
  | String c rest => (nat_of_ascii c <? 128)%nat && is_ascii rest
  end.

Section ProcessData.

(** [strings.ToUpper] is a parameter: outside ASCII it follows the Unicode
    tables, which are no part of the handbook. *)
Variable ToUpper : string -> string.

(** [func processData(input string) (result string, err error)] *)
Definition processData (input : string) : string * error :=
  if (String.length input =? 0)%nat
  then (EmptyString, Errorf "empty input provided" [])
  else (ToUpper input, None).

End ProcessData.

End Functions.

(** ** The producer and consumer of the handbook's "Channels" section *)

Module Pipeline.

Import Fmt Overview.
Local Open Scope string_scope.
Local Open Scope list_scope.

(** The text the goroutine sends for [i]. *)
Definition result_msg (i : Z) : string := Sprintf "Result %d" [AInt i].

(** Where the sending goroutine stands: not started, at the loop test with
    [i] (followed, inside the loop, by the send), at [close(results)], or
    returned. *)
Inductive producer_pc : Type :=
| PNone
| PLoop (i : Z)
| PClose
| PExit.

(** Where the enclosing code stands: at the [go] statement, at the range
    loop, or past it. *)
Inductive consumer_pc : Type :=
| KGo
| KRange
| KExit.

Record pstate : Type := PState {
  ps_producer : producer_pc;
  ps_consumer : consumer_pc;
  ps_ch : chan;
  ps_stdout : stdout;
  ps_panic : bool
}.

Definition set_producer (pc : producer_pc) (s : pstate) : pstate :=
  PState pc (ps_consumer s) (ps_ch s) (ps_stdout s) (ps_panic s).

Definition set_consumer (pc : consumer_pc) (s : pstate) : pstate :=
  PState (ps_producer s) pc (ps_ch s) (ps_stdout s) (ps_panic s).

Definition set_results (c : chan) (s : pstate) : pstate :=
  PState (ps_producer s) (ps_consumer s) c (ps_stdout s) (ps_panic s).

Definition set_output (out : stdout) (s : pstate) : pstate :=
  PState (ps_producer s) (ps_consumer s) (ps_ch s) out (ps_panic s).

Definition ppanic (s : pstate) : pstate :=
  PState (ps_producer s) (ps_consumer s) (ps_ch s) (ps_stdout s) true.

(** The goroutine the scheduler runs next. *)
Inductive plabel : Type :=
| LProducer
| LConsumer.

(** The consumer waits in its range loop. *)
Definition consumer_waits (s : pstate) : bool :=
  match ps_consumer s with
  | KRange => true
  | _ => false
  end.

(** [fmt.Println("Received:", result)] *)
Definition receive (result : string) (out : stdout) : stdout :=
  Println [AStr "Received:"; AStr result] out.

(** [results := make(chan string, cap)], before the [go] statement. *)
Definition pinit : pstate := PState PNone KGo make_chan [] false.

Section Program.

(** The handbook sends 5 results on a channel of capacity 10; the loop
    bound [n] and the capacity [cap] are parameters here, and
    [channels_step] below is the code as printed. *)
Variable n : Z.
Variable cap : nat.

(** One step of the goroutine
    [func() { for i := 1; i <= n; i++ { results <- ... }; close(results) }].
    A message handed over to the waiting consumer is printed by the
    consumer in the same step. *)
Definition producer (s : pstate) : option pstate :=
  match ps_producer s with
  | PNone => None
  | PLoop i =>
      if (i <=? n)%Z
      then match chan_send cap (consumer_waits s) (result_msg i) (ps_ch s) with
           | Ok (c, handed) =>
               let s' := set_producer (PLoop (GoInt.incr i)) (set_results c s) in
               match handed with
               | Some result => Some (set_output (receive result (ps_stdout s')) s')
               | None => Some s'
               end
           | Blocked => None
           | Panic => Some (ppanic s)
           end
      else Some (set_producer PClose s)
  | PClose =>
      match chan_close (ps_ch s) with
      | Ok c => Some (set_producer PExit (set_results c s))
      | Blocked => None
      | Panic => Some (ppanic s)
      end
  | PExit => None
  end.

(** One step of the enclosing code: the [go] statement, then
    [for result := range results { fmt.Println("Received:", result) }]. *)
Definition consumer (s : pstate) : option pstate :=
  match ps_consumer s with
  | KGo => Some (set_consumer KRange (set_producer (PLoop 1) s))
  | KRange =>
      match chan_range (ps_ch s) with
      | Ok (c, Some result) =>
          Some (set_output (receive result (ps_stdout s)) (set_results c s))
      | Ok (c, None) => Some (set_consumer KExit (set_results c s))
      | Blocked => None
      | Panic => Some (ppanic s)
      end
  | KExit => None
  end.

(** One scheduler step: [None] when the chosen goroutine cannot move. *)
Definition pstep (l : plabel) (s : pstate) : option pstate :=
  if ps_panic s then None
  else match l with
       | LProducer => producer s
       | LConsumer => consumer s
       end.

(** A schedule run from a state. *)
Fixpoint prun (sched : list plabel) (s : pstate) : option pstate :=
  match sched with
  | [] => Some s
  | l :: sched =>
      match pstep l s with
      | Some s' => prun sched s'
      | None => None
      end
  end.

End Program.

(** The code as the handbook prints it: [i <= 5] and
    [make(chan string, 10)]. *)
Definition channels_step : plabel -> pstate -> option pstate := pstep 5 10.
Definition channels_run : list plabel -> pstate -> option pstate := prun 5 10.

End Pipeline.

(** * Part II: the vocabulary of the properties *)

Module Spec.

Import Fmt Overview.
Local Open Scope string_scope.
Local Open Scope list_scope.

(** The line a worker's message becomes on standard output. *)
Definition worker_line (id : Z) : string := line (worker_msg id).

(** The text of [l] between a leading [pre] and a trailing [post], when
    [l] has both. *)
Definition between (pre post l : string) : option string :=
  let len := String.length l in
  if String.prefix pre l
     && (String.length pre + String.length post <=? len)%nat
     && String.eqb (substring (len - String.length post) (String.length post) l) post
  then Some (substring (String.length pre)
               (len - String.length pre - String.length post) l)
  else None.

(** The identifier a printed line names: the decimal number between
    ["Worker "] and [" completed task"] followed by a line feed. *)
Definition result_id (l : string) : option Z :=
  match between "Worker " (line " completed task") l with
  | Some d => option_map Z.of_int (NilZero.int_of_string d)
  | None => None
  end.

(** The last character of a text. *)
Fixpoint last_char (s : string) : option ascii :=
  match s with
  | EmptyString => None
  | String c EmptyString => Some c
  | String _ rest => last_char rest
  end.

(** Workers that have not returned yet. *)
Fixpoint live (ws : list (Z * worker_pc)) : nat :=
  match ws with
  | [] => 0
  | (_, WExit) :: ws => live ws
  | _ :: ws => S (live ws)
  end.

(** Identifiers of the workers whose send has completed. *)
Fixpoint finished (ws : list (Z * worker_pc)) : list Z :=
  match ws with
  | [] => []
  | (_, WSend) :: ws => finished ws
  | (id, _) :: ws => id :: finished ws
  end.

(** Steps a worker still has to take, counting the receipt of its
    message. *)
Definition worker_weight (pc : worker_pc) : nat :=
  match pc with
  | WSend => 3
  | WDone => 1
  | WExit => 0
  end.

Fixpoint weight (ws : list (Z * worker_pc)) : nat :=
  match ws with
  | [] => 0
  | (_, pc) :: ws => worker_weight pc + weight ws
  end.

Definition closer_weight (pc : closer_pc) : nat :=
  match pc with
  | CNone | CWait => 2
  | CClose => 1
  | CExit => 0
  end.

(** The number of workers started so far. *)
Definition started (s : state) : Z := Z.of_nat (length (st_workers s)).

(** [wg.Add(1)] has run for a worker that is not started yet. *)
Definition adding (s : state) : Z :=
  match st_main s with
  | MGo _ => 1
  | _ => 0
  end.

(** The step executes [close(messages)]. *)
Definition is_close (l : label) (s : state) : bool :=
  match l, st_closer s with
  | LCloser, CClose => true
  | _, _ => false
  end.

(** The range loop of [main] has ended: the consumer has seen the end of
    the stream. *)
Definition drained (s : state) : Prop := st_main s = MExit.

Section Spec.

Variable n : Z.
Variable cap : nat.

(** How many steps of a schedule execute [close(messages)]. *)
Fixpoint close_count (sched : list label) (s : state) : nat :=
  match sched with
  | [] => 0
  | l :: sched =>
      match step n cap l s with
      | Some s' => ((if is_close l s then 1 else 0) + close_count sched s')%nat
      | None => 0%nat
      end
  end.

Definition main_inv (s : state) : Prop :=
  match st_main s with
  | MLoop i => i = started s + 1 /\ st_closer s = CNone
  | MGo i => i = started s + 1 /\ i <= n /\ st_closer s = CNone
  | MGoCloser => started s = n /\ st_closer s = CNone
  | MRange => started s = n /\ st_closer s <> CNone
  | MExit => started s = n /\ st_closer s = CExit /\ ch_buf (st_ch s) = []
  end.

Definition closer_inv (s : state) : Prop :=
  match st_closer s with
  | CNone | CWait => ch_closed (st_ch s) = false
  | CClose => ch_closed (st_ch s) = false /\ live (st_workers s) = 0%nat
  | CExit => ch_closed (st_ch s) = true /\ live (st_workers s) = 0%nat
  end.

(** What holds in every state the program reaches. *)
Record inv (s : state) : Prop := Inv {
  inv_panic : st_panic s = false;
  inv_ids : (st_workers s).*1 = seqZ 1 (started s);
  inv_started : started s <= n;
  inv_main : main_inv s;
  inv_closer : closer_inv s;
  inv_wg : st_wg s = Z.of_nat (live (st_workers s)) + adding s;
  inv_sent : st_sent s ≡ₚ finished (st_workers s);
  inv_fifo : st_stdout s ++ map line (ch_buf (st_ch s))
             = map worker_line (st_sent s);
  inv_cap : (length (ch_buf (st_ch s)) <= cap)%nat
}.

Definition main_weight (pc : main_pc) : nat :=
  match pc with
  | MLoop i => 5 * Z.to_nat (n + 1 - i) + 3
  | MGo i => 5 * Z.to_nat (n + 1 - i) + 2
  | MGoCloser => 2
  | MRange => 1
  | MExit => 0
  end.

(** An upper bound on the steps the program can still take. *)
Definition budget (s : state) : nat :=
  main_weight (st_main s) + weight (st_workers s)
  + closer_weight (st_closer s) + length (ch_buf (st_ch s)).

End Spec.

(** A complete run of the handbook's program in which the workers send in
    the order 3, 1, 2. *)
Definition sched_312 : list label :=
  [LMain; LMain; LMain; LMain; LMain; LMain; LMain; LMain;
   LWorker 2; LWorker 0; LWorker 1; LWorker 0; LWorker 1; LWorker 2;
   LCloser; LCloser; LMain; LMain; LMain; LMain].

Definition final_312 : state :=
  State MExit [(1, WExit); (2, WExit); (3, WExit)] CExit (Chan [] true) 0
        [worker_line 3; worker_line 1; worker_line 2] false [3; 1; 2].

(** The only complete run without workers. *)
Definition sched_empty : list label := [LMain; LMain; LCloser; LCloser; LMain].

Definition final_empty : state :=
  State MExit [] CExit (Chan [] true) 0 [] false [].

(** Schedules of the handbook's program that let the workers send in a
    given order of their positions [k1], [k2], [k3]. *)
Definition sched_order (k1 k2 k3 : nat) : list label :=
  [LMain; LMain; LMain; LMain; LMain; LMain; LMain; LMain;
   LWorker k1; LWorker k2; LWorker k3; LWorker 0; LWorker 1; LWorker 2;
   LCloser; LCloser; LMain; LMain; LMain; LMain].

(** The state after a complete run in which the sends completed in
    [order]. *)
Definition final_order (order : list Z) : state :=
  State MExit [(1, WExit); (2, WExit); (3, WExit)] CExit (Chan [] true) 0
        (map worker_line order) false order.

End Spec.

(** ** The vocabulary of [main.go] *)

Module HandbookSpec.

Import Fmt Handbook.
Local Open Scope string_scope.
Local Open Scope list_scope.

(** The name [greet] greets: ["World"] for the empty name. *)
Definition greeted (name : string) : string :=
  if String.eqb name EmptyString then "World" else name.

(** The line the number-checking loop prints for [i]. *)
Definition number_line (i : Z) : string :=
  line (fmt_d i +:+ (if isEven i then " is even" else " is odd")).

(** The line [main] prints for an entry of the map. *)
Definition color_line (e : string * string) : string :=
  line (e.1 +:+ ": " +:+ e.2).

(** What [main] has written when it reaches the loop over the map. *)
Definition main_head : stdout :=
  [line "Hello, Gopher!"; line (nl +:+ "Checking numbers from 1 to 5:");
   line "1 is odd"; line "2 is even"; line "3 is odd"; line "4 is even";
   line "5 is odd";
   line (nl +:+ "Numbers: [1 2 3 4 5]"); line (nl +:+ "Colors:")].

End HandbookSpec.

(** ** The vocabulary of the producer and consumer *)

Module PipelineSpec.

Import Fmt Overview Pipeline.
Local Open Scope string_scope.
Local Open Scope list_scope.

(** The line the consumer prints for the result of [i]. *)
Definition received_line (i : Z) : string :=
  line ("Received: " +:+ result_msg i).

(** What the consumer prints for a message. *)
Definition received (msg : string) : string := line ("Received: " +:+ msg).

(** How many sends have completed. *)
Definition produced (n : Z) (s : pstate) : Z :=
  match ps_producer s with
  | PNone => 0
  | PLoop i => i - 1
  | PClose | PExit => n
  end.

(** The range loop has ended. *)
Definition finished_range (s : pstate) : Prop := ps_consumer s = KExit.

Section Spec.

Variable n : Z.
Variable cap : nat.

Definition producer_inv (s : pstate) : Prop :=
  match ps_producer s with
  | PNone => ps_consumer s = KGo /\ ps_ch s = make_chan /\ ps_stdout s = []
  | PLoop i =>
      1 <= i <= n + 1 /\ ps_consumer s = KRange /\ ch_closed (ps_ch s) = false
  | PClose => ps_consumer s = KRange /\ ch_closed (ps_ch s) = false
  | PExit => ps_consumer s <> KGo /\ ch_closed (ps_ch s) = true
  end.

(** What holds in every state the producer and consumer reach. *)
Record pinv (s : pstate) : Prop := PInv {
  pinv_panic : ps_panic s = false;
  pinv_producer : producer_inv s;
  pinv_exit :
    ps_consumer s = KExit -> ps_producer s = PExit /\ ch_buf (ps_ch s) = [];
  pinv_fifo : ps_stdout s ++ map received (ch_buf (ps_ch s))
              = map received_line (seqZ 1 (produced n s));
  pinv_cap : (length (ch_buf (ps_ch s)) <= cap)%nat
}.

Definition producer_weight (pc : producer_pc) : nat :=
  match pc with
  | PNone => 2 * Z.to_nat n + 2
  | PLoop i => 2 * Z.to_nat (n + 1 - i) + 2
  | PClose => 1
  | PExit => 0
  end.

Definition consumer_weight (pc : consumer_pc) : nat :=
  match pc with
  | KGo => 2
  | KRange => 1
  | KExit => 0
  end.

(** An upper bound on the steps still to come. *)
Definition pbudget (s : pstate) : nat :=
  producer_weight (ps_producer s) + consumer_weight (ps_consumer s)
  + length (ch_buf (ps_ch s)).

End Spec.

(** A complete run of the handbook's code in which the producer fills the
    channel and closes it before the consumer reads. *)
Definition sched_fill : list plabel :=
  [LConsumer; LProducer; LProducer; LProducer; LProducer; LProducer;
   LProducer; LProducer; LConsumer; LConsumer; LConsumer; LConsumer;
   LConsumer; LConsumer].

Definition final_channels : pstate :=
  PState PExit KExit (Chan [] true) (map received_line [1; 2; 3; 4; 5]) false.

End PipelineSpec.

(** * Part III: lemmas *)

Import Fmt Overview Spec.

(** ** Machine integers *)

Lemma wrap_in_range z : GoInt.in_range z -> GoInt.wrap z = z.
Proof.
  unfold GoInt.in_range, GoInt.wrap, GoInt.min_int, GoInt.max_int. intros H.
  rewrite Z.mod_small; lia.
Qed.

Lemma incr_no_overflow i :
  GoInt.min_int <= i < GoInt.max_int -> GoInt.incr i = i + 1.
Proof.
  intros H. unfold GoInt.incr. apply wrap_in_range.
  unfold GoInt.in_range, GoInt.min_int, GoInt.max_int in *. lia.
Qed.

Lemma wrap32_in_range z :
  - 2 ^ 31 <= z <= GoInt.max_int32 -> GoInt.wrap32 z = z.
Proof.
  unfold GoInt.wrap32, GoInt.max_int32. intros H.
  rewrite Z.mod_small; lia.
Qed.

Lemma rem_2_exact a : GoInt.rem a 2 = Z.rem a 2.
Proof.
  unfold GoInt.rem. apply wrap_in_range.
  unfold GoInt.in_range, GoInt.min_int, GoInt.max_int.
  pose proof (Z.rem_bound_abs a 2 ltac:(lia)). lia.
Qed.

(** ** Strings *)

Section Strings.

Local Open Scope string_scope.

Lemma append_assoc a b c : (a +:+ b) +:+ c = a +:+ (b +:+ c).
Proof. induction a as [|x a IH]; simpl; congruence. Qed.

Lemma append_nil_r a : a +:+ EmptyString = a.
Proof. induction a as [|x a IH]; simpl; congruence. Qed.

Lemma length_append a b :
  String.length (a +:+ b) = (String.length a + String.length b)%nat.
Proof. induction a as [|x a IH]; simpl; congruence. Qed.

Lemma substring_append_skip a b k m :
  substring (String.length a + k) m (a +:+ b) = substring k m b.
Proof. induction a as [|x a IH]; simpl; auto. Qed.

Lemma substring_append_take a b : substring 0 (String.length a) (a +:+ b) = a.
Proof. induction a as [|x a IH]; simpl; [by destruct b|congruence]. Qed.

Lemma prefix_append a b : String.prefix a (a +:+ b) = true.
Proof.
  induction a as [|x a IH]; simpl; [by destruct b|].
  destruct (ascii_dec x x); done.
Qed.

Lemma last_char_append a c : last_char (a +:+ String c EmptyString) = Some c.
Proof.
  induction a as [|x a IH]; simpl; [done|].
  rewrite IH. by destruct a.
Qed.

Lemma substring_suffix a b :
  substring (String.length a) (String.length b) (a +:+ b) = b.
Proof.
  replace (String.length a) with (String.length a + 0)%nat by lia.
  rewrite substring_append_skip.
  rewrite <- (append_nil_r b) at 2. apply substring_append_take.
Qed.

Lemma substring_middle a b c :
  substring (String.length a) (String.length b) (a +:+ b +:+ c) = b.
Proof.
  replace (String.length a) with (String.length a + 0)%nat by lia.
  rewrite substring_append_skip. apply substring_append_take.
Qed.

Lemma between_append pre d post : between pre post (pre +:+ d +:+ post) = Some d.
Proof.
  unfold between. cbv zeta.
  set (l := pre +:+ d +:+ post).
  assert (Hlen : String.length l
                 = (String.length pre + String.length d + String.length post)%nat)
    by (unfold l; rewrite !length_append; lia).
  assert (Hsuf : substring (String.length l - String.length post)
                   (String.length post) l = post).
  { replace (String.length l - String.length post)%nat
      with (String.length (pre +:+ d)) by (rewrite length_append; lia).
    unfold l. rewrite <- append_assoc. apply substring_suffix. }
  assert (Hmid : substring (String.length pre)
                   (String.length l - String.length pre - String.length post) l = d).
  { replace (String.length l - String.length pre - String.length post)%nat
      with (String.length d) by lia.
    apply substring_middle. }
  rewrite Hsuf, Hmid, String.eqb_refl. unfold l at 1. rewrite prefix_append.
  replace (_ <=? _)%nat with true; [done|].
  symmetry. apply Nat.leb_le. lia.
Qed.

End Strings.

(** ** Formatting *)

Lemma println_line msg out : Println [AStr msg] out = out ++ [line msg].
Proof. reflexivity. Qed.

Lemma worker_msg_text id :
  worker_msg id = ("Worker " +:+ fmt_d id +:+ " completed task")%string.
Proof. reflexivity. Qed.

Lemma worker_line_text id :
  worker_line id = ("Worker " +:+ fmt_d id +:+ line " completed task")%string.
Proof.
  unfold worker_line. rewrite worker_msg_text. unfold line.
  by rewrite !append_assoc.
Qed.

Lemma to_int_nonnil z : Z.to_int z <> Pos Nil /\ Z.to_int z <> Neg Nil.
Proof.
  destruct z as [|p|p]; simpl; split; try discriminate.
  all: intros [=H]; by apply (Unsigned.to_uint_nonnil p).
Qed.

(** Reading back a number printed with [%d]. *)
Lemma parse_fmt_d z : option_map Z.of_int (NilZero.int_of_string (fmt_d z)) = Some z.
Proof.
  unfold fmt_d. destruct (to_int_nonnil z).
  rewrite NilZero.isi by done. simpl. by rewrite of_to.
Qed.

(** A worker's line names the worker's identifier. *)
Lemma result_id_worker_line id : result_id (worker_line id) = Some id.
Proof.
  rewrite worker_line_text. unfold result_id.
  rewrite between_append. apply parse_fmt_d.
Qed.

Lemma worker_line_inj id1 id2 : worker_line id1 = worker_line id2 -> id1 = id2.
Proof.
  intros H. apply (f_equal result_id) in H.
  rewrite !result_id_worker_line in H. congruence.
Qed.

#[local] Instance worker_line_Inj : Inj (=) (=) worker_line.
Proof. intros id1 id2. apply worker_line_inj. Qed.

Lemma result_id_lines (ids : list Z) :
  map result_id (map worker_line ids) = map Some ids.
Proof.
  induction ids as [|id ids IH]; simpl; [done|].
  by rewrite result_id_worker_line, IH.
Qed.

(** ** Bookkeeping on the workers *)

Lemma live_app ws1 ws2 : live (ws1 ++ ws2) = (live ws1 + live ws2)%nat.
Proof.
  induction ws1 as [|[id pc] ws1 IH]; simpl; [done|].
  destruct pc; simpl; lia.
Qed.

Lemma finished_app ws1 ws2 : finished (ws1 ++ ws2) = finished ws1 ++ finished ws2.
Proof.
  induction ws1 as [|[id pc] ws1 IH]; simpl; [done|].
  destruct pc; simpl; congruence.
Qed.

Lemma weight_app ws1 ws2 : weight (ws1 ++ ws2) = (weight ws1 + weight ws2)%nat.
Proof.
  induction ws1 as [|[id pc] ws1 IH]; simpl; [done|]. lia.
Qed.

Lemma finished_length ws : (length (finished ws) <= length ws)%nat.
Proof.
  induction ws as [|[id pc] ws IH]; simpl; [done|].
  destruct pc; simpl; lia.
Qed.

Lemma live_length ws : (live ws <= length ws)%nat.
Proof.
  induction ws as [|[id pc] ws IH]; simpl; [done|].
  destruct pc; simpl; lia.
Qed.

Lemma live_lookup (ws : list (Z * worker_pc)) (k : nat) id pc :
  ws !! k = Some (id, pc) -> pc <> WExit -> (1 <= live ws)%nat.
Proof.
  revert k. induction ws as [|[id' pc'] ws IH]; intros [|k] Hk Hpc; simplify_eq/=.
  - destruct pc; [lia | lia | done].
  - specialize (IH _ Hk Hpc). destruct pc'; lia.
Qed.

Lemma live_0_finished ws : live ws = 0%nat -> finished ws = ws.*1.
Proof.
  induction ws as [|[id pc] ws IH]; simpl; [done|].
  destruct pc; intros H; try discriminate. f_equal. auto.
Qed.

(** Some worker can still move, or all have returned. *)
Lemma live_pos_lookup ws :
  (0 < live ws)%nat -> exists k id pc, ws !! k = Some (id, pc) /\ pc <> WExit.
Proof.
  induction ws as [|[id pc] ws IH]; simpl; [lia|]. intros H.
  destruct pc.
  - exists 0%nat, id, WSend. done.
  - exists 0%nat, id, WDone. done.
  - destruct (IH H) as (k & id' & pc' & Hk & Hpc). exists (S k), id', pc'. done.
Qed.

(** Moving the [k]-th worker from [pc] to [pc'] changes one entry. *)
Lemma update_split (ws : list (Z * worker_pc)) (k : nat) id pc pc' :
  ws !! k = Some (id, pc) ->
  exists ws1 ws2,
    ws = ws1 ++ (id, pc) :: ws2 /\
    <[k := (id, pc')]> ws = ws1 ++ (id, pc') :: ws2.
Proof.
  intros Hk. exists (take k ws), (drop (S k) ws). split.
  - symmetry. by apply take_drop_middle.
  - apply insert_take_drop. by eapply lookup_lt_Some.
Qed.

Ltac split_update H pc' :=
  let ws1 := fresh "ws1" in
  let ws2 := fresh "ws2" in
  let E := fresh "E" in
  destruct (update_split _ _ _ _ pc' H) as (ws1 & ws2 & -> & E);
  rewrite E; clear E.

Lemma ids_update (ws : list (Z * worker_pc)) (k : nat) id pc pc' :
  ws !! k = Some (id, pc) -> (<[k := (id, pc')]> ws).*1 = ws.*1.
Proof. intros Hk. split_update Hk pc'. by rewrite !fmap_app. Qed.

Lemma weight_update (ws : list (Z * worker_pc)) (k : nat) id pc pc' :
  ws !! k = Some (id, pc) ->
  (weight (<[k := (id, pc')]> ws) + worker_weight pc
   = weight ws + worker_weight pc')%nat.
Proof. intros Hk. split_update Hk pc'. rewrite !weight_app. simpl. lia. Qed.

Lemma live_sent (ws : list (Z * worker_pc)) (k : nat) id :
  ws !! k = Some (id, WSend) -> live (<[k := (id, WDone)]> ws) = live ws.
Proof. intros Hk. split_update Hk WDone. by rewrite !live_app. Qed.

Lemma live_done (ws : list (Z * worker_pc)) (k : nat) id :
  ws !! k = Some (id, WDone) -> S (live (<[k := (id, WExit)]> ws)) = live ws.
Proof. intros Hk. split_update Hk WExit. rewrite !live_app. simpl. lia. Qed.

Lemma finished_sent (ws : list (Z * worker_pc)) (k : nat) id :
  ws !! k = Some (id, WSend) ->
  finished (<[k := (id, WDone)]> ws) ≡ₚ finished ws ++ [id].
Proof.
  intros Hk. split_update Hk WDone. rewrite !finished_app. simpl.
  rewrite <- app_assoc. apply Permutation_app_head.
  by rewrite <- Permutation_cons_append.
Qed.

Lemma finished_done (ws : list (Z * worker_pc)) (k : nat) id :
  ws !! k = Some (id, WDone) ->
  finished (<[k := (id, WExit)]> ws) = finished ws.
Proof. intros Hk. split_update Hk WExit. by rewrite !finished_app. Qed.

Lemma started_snoc (k : nat) :
  seqZ 1 (Z.of_nat (k + 1)) = seqZ 1 (Z.of_nat k) ++ [Z.of_nat k + 1].
Proof. rewrite Nat.add_1_r, seqZ_S. f_equal. f_equal. lia. Qed.

(** ** The invariant *)

Ltac inv_unfold :=
  unfold main_inv, closer_inv, started, adding, is_close in *; simpl in *.

Ltac fin := try done; try lia; try (repeat split; first [done | lia]).

Ltac inv_split :=
  split; inv_unfold;
  rewrite ?length_app, ?live_app, ?finished_app, ?length_insert, ?app_nil_r;
  simpl; fin.

Ltac step_unfold H :=
  unfold step in H; simpl in H;
  unfold main, worker, closer, chan_send, chan_range, chan_close,
    wg_done, wg_add, wg_wait in H; simpl in H.

Section Invariant.

Variable n : Z.
Variable cap : nat.

(** The number of workers is a count the wait group can hold. *)
Hypothesis Hn : 0 <= n <= GoInt.max_int32.

Lemma inv_init : inv n cap init.
Proof using Hn. split; inv_unfold; try done; lia. Qed.

Lemma inv_step l s s' : inv n cap s -> step n cap l s = Some s' -> inv n cap s'.
Proof using Hn.
  intros [Hp Hids Hst Hm Hc Hwg Hsent Hfifo Hcap] Hstep.
  destruct s as [pcm ws pcc [buf closed] wg out pn sent].
  simpl in *. subst pn. inv_unfold. step_unfold Hstep.
  pose proof (live_length ws) as Hll.
  destruct l as [|k|].
  - (* main *)
    destruct pcm as [i|i| | |]; simpl in *.
    + destruct Hm as [-> ->].
      destruct (Z.leb_spec (Z.of_nat (length ws) + 1) n).
      * rewrite wrap32_in_range in Hstep by lia.
        destruct (Z.ltb_spec (wg + 1) 0); simplify_eq; [exfalso; lia|].
        inv_split.
      * simplify_eq. inv_split.
    + destruct Hm as (-> & Hle & ->). simplify_eq.
      rewrite incr_no_overflow by (unfold GoInt.min_int, GoInt.max_int, GoInt.max_int32 in *; lia).
      inv_split.
      rewrite fmap_app, Hids, started_snoc. done.
    + destruct Hm as [Hk ->]. simplify_eq. inv_split.
    + destruct Hm as [Hk Hne]. destruct buf as [|v rest].
      * destruct closed; simplify_eq. inv_split.
        -- destruct pcc; intuition congruence.
        -- by rewrite app_nil_r in Hfifo.
      * simplify_eq. inv_split.
        by rewrite println_line, <- app_assoc.
    + done.
  - (* a worker *)
    destruct (ws !! k) as [[id pc]|] eqn:Hk; [|done].
    destruct pc; [| |done].
    + assert (Hlive : (1 <= live ws)%nat) by (by eapply live_lookup).
      destruct closed.
      { exfalso. destruct pcc; try done; lia. }
      pose proof (ids_update ws k id WSend WDone Hk) as Eids.
      pose proof (live_sent ws k id Hk) as Elive.
      pose proof (finished_sent ws k id Hk) as Efin.
      destruct (Nat.ltb_spec (length buf) cap).
      * simplify_eq. inv_split; rewrite ?Eids, ?Elive, ?Efin; fin.
        -- destruct pcm, pcc; intuition congruence.
        -- by rewrite Hsent.
        -- rewrite !map_app, app_assoc, Hfifo. done.
      * destruct (Nat.eqb_spec cap 0); simpl in Hstep; [|done].
        destruct pcm; simpl in Hstep; try done. simplify_eq.
        assert (buf = []) as -> by (destruct buf; [done|simpl in *; lia]).
        inv_split; rewrite ?Eids, ?Elive, ?Efin; fin.
        -- by rewrite Hsent.
        -- rewrite app_nil_r in Hfifo.
           by rewrite println_line, map_app, Hfifo.
    + assert (Hlive : (1 <= live ws)%nat) by (by eapply live_lookup).
      pose proof (ids_update ws k id WDone WExit Hk) as Eids.
      pose proof (live_done ws k id Hk) as Elive.
      pose proof (finished_done ws k id Hk) as Efin.
      rewrite wrap32_in_range in Hstep by (destruct pcm; simpl in *; lia).
      destruct (Z.ltb_spec (wg + -1) 0); simplify_eq.
      { exfalso. destruct pcm; simpl in *; lia. }
      inv_split; rewrite ?Eids, ?Efin; fin.
      destruct pcc; fin; destruct Hc; lia.
  - (* the closing goroutine *)
    destruct pcc; try done.
    + destruct (Z.eqb_spec wg 0); [|done]. simplify_eq.
      inv_split.
      * destruct pcm; intuition congruence.
      * split; [done|]. destruct pcm; lia.
    + destruct Hc as [-> Hlive]. simplify_eq.
      inv_split.
      destruct pcm; intuition congruence.
Qed.

Lemma inv_run sched : forall s s',
  inv n cap s -> run n cap sched s = Some s' -> inv n cap s'.
Proof using Hn.
  induction sched as [|l sched IH]; intros s s' Hs Hrun; simpl in Hrun.
  - by simplify_eq.
  - destruct (step n cap l s) as [s1|] eqn:Hstep; [|done].
    eauto using inv_step.
Qed.

Lemma inv_reachable sched s : run n cap sched init = Some s -> inv n cap s.
Proof using Hn. apply inv_run, inv_init. Qed.

(** No more lines are printed than workers were asked for. *)
Lemma inv_stdout_le s : inv n cap s -> Z.of_nat (length (st_stdout s)) <= n.
Proof.
  intros [Hp Hids Hst Hm Hc Hwg Hsent Hfifo Hcap].
  apply (f_equal length) in Hfifo.
  rewrite length_app, !length_map, Hsent in Hfifo.
  pose proof (finished_length (st_workers s)). unfold started in Hst. lia.
Qed.

(** All results have entered the channel once the closing goroutine is past
    [wg.Wait()]. *)
Lemma inv_all_sent s :
  inv n cap s -> st_closer s = CClose \/ ch_closed (st_ch s) = true ->
  st_sent s ≡ₚ seqZ 1 n.
Proof.
  intros [Hp Hids Hst Hm Hc Hwg Hsent Hfifo Hcap] Hcl.
  destruct s as [pcm ws pcc [buf closed] wg out pn sent].
  inv_unfold.
  assert (live ws = 0%nat /\ pcc <> CNone /\ pcc <> CWait) as (Hlive & Hn1 & Hn2).
  { destruct Hcl as [-> | ->]; [by destruct Hc|].
    destruct pcc; try done; by destruct Hc. }
  rewrite Hsent, live_0_finished, Hids by done.
  destruct pcm; destruct Hm as [Hk Hm]; try (by destruct Hm); by rewrite Hk.
Qed.

(** *** Progress: until [main] returns, some goroutine can move *)

Lemma progress s :
  inv n cap s -> st_main s <> MExit -> exists l s', step n cap l s = Some s'.
Proof using Hn.
  intros [Hp Hids Hst Hm Hc Hwg Hsent Hfifo Hcap] Hmain.
  destruct s as [pcm ws pcc [buf closed] wg out pn sent].
  inv_unfold. subst pn.
  destruct pcm as [i|i| | |]; try done.
  - exists LMain. unfold step, main, wg_add; simpl.
    destruct (i <=? n)%Z; [|eauto]. destruct (_ <? 0)%Z; eauto.
  - exists LMain. unfold step, main; simpl. eauto.
  - exists LMain. unfold step, main; simpl. eauto.
  - destruct buf as [|v rest]; [|exists LMain; unfold step, main; simpl; eauto].
    destruct closed; [exists LMain; unfold step, main; simpl; eauto|].
    destruct (Nat.eq_dec (live ws) 0%nat) as [Hlive|Hlive].
    + exists LCloser. unfold step, closer, wg_wait, chan_close; simpl.
      destruct Hm as [_ Hne]. destruct pcc; try done; eauto.
      * rewrite Hwg, Hlive. simpl. eauto.
      * destruct Hc; done.
    + destruct (live_pos_lookup ws) as (k & id & pc & Hk & Hpc); [lia|].
      exists (LWorker k).
      unfold step, worker, chan_send, wg_done, wg_add; simpl. rewrite Hk.
      destruct pc; try done.
      * destruct (Nat.ltb_spec 0 cap); [eauto|].
        assert (cap = 0%nat) as -> by lia. simpl. eauto.
      * destruct (_ <? 0)%Z; eauto.
Qed.

(** *** Termination: every step uses up the budget *)

Lemma budget_init : budget n init = (5 * Z.to_nat n + 5)%nat.
Proof. unfold budget; simpl. replace (n + 1 - 1) with n by lia. lia. Qed.

Lemma budget_step l s s' :
  inv n cap s -> step n cap l s = Some s' -> (budget n s' < budget n s)%nat.
Proof using Hn.
  intros Hs Hstep.
  pose proof (inv_panic _ _ _ (inv_step _ _ _ Hs Hstep)) as Hp'.
  destruct Hs as [Hp Hids Hst Hm Hc Hwg Hsent Hfifo Hcap].
  destruct s as [pcm ws pcc [buf closed] wg out pn sent].
  simpl in *. subst pn. inv_unfold. step_unfold Hstep. unfold budget.
  destruct l as [|k|].
  - destruct pcm as [i|i| | |]; simpl in *; try done.
    + destruct (Z.leb_spec i n).
      * destruct (_ <? 0)%Z; simplify_eq; simpl in *; try done; lia.
      * simplify_eq; simpl. lia.
    + destruct Hm as (-> & Hle & ->). simplify_eq; simpl.
      rewrite incr_no_overflow by (unfold GoInt.min_int, GoInt.max_int, GoInt.max_int32 in *; lia).
      rewrite weight_app. simpl. lia.
    + destruct Hm as [_ ->]. simplify_eq; simpl. lia.
    + destruct buf as [|v rest]; [destruct closed|]; simplify_eq; simpl; lia.
  - destruct (ws !! k) as [[id pc]|] eqn:Hk; [|done].
    destruct pc; [| |done].
    + pose proof (weight_update ws k id WSend WDone Hk) as Ew. simpl in Ew.
      destruct closed; [by simplify_eq|].
      destruct (_ <? _)%nat.
      * simplify_eq; simpl. rewrite length_app. simpl. lia.
      * destruct (_ && _); simplify_eq; simpl. lia.
    + pose proof (weight_update ws k id WDone WExit Hk) as Ew. simpl in Ew.
      destruct (_ <? 0)%Z; simplify_eq; simpl in *; try done; lia.
  - destruct pcc; try done.
    + destruct (_ =? 0)%Z; simplify_eq; simpl. lia.
    + destruct closed; simplify_eq; simpl in *; try done; lia.
Qed.

Lemma budget_run sched : forall s s',
  inv n cap s -> run n cap sched s = Some s' ->
  (length sched + budget n s' <= budget n s)%nat.
Proof using Hn.
  induction sched as [|l sched IH]; intros s s' Hs Hrun; simpl in Hrun.
  - simplify_eq. simpl. lia.
  - destruct (step n cap l s) as [s1|] eqn:Hstep; [|done].
    pose proof (budget_step _ _ _ Hs Hstep).
    pose proof (IH _ _ (inv_step _ _ _ Hs Hstep) Hrun). simpl. lia.
Qed.

(** The length of any run of the program is bounded. *)
Lemma run_length sched s :
  run n cap sched init = Some s -> (length sched <= 5 * Z.to_nat n + 5)%nat.
Proof using Hn.
  intros Hrun. pose proof (budget_run _ _ _ inv_init Hrun) as H.
  rewrite budget_init in H. lia.
Qed.

(** *** Completion: every reachable state can be run until [main] returns *)

Lemma run_app sched1 sched2 s :
  run n cap (sched1 ++ sched2) s
  = match run n cap sched1 s with
    | Some s1 => run n cap sched2 s1
    | None => None
    end.
Proof.
  revert s. induction sched1 as [|l sched1 IH]; intros s; simpl; [done|].
  destruct (step n cap l s); [apply IH|done].
Qed.

Lemma completion s :
  inv n cap s -> exists sched s', run n cap sched s = Some s' /\ drained s'.
Proof using Hn.
  remember (budget n s) as b eqn:Hb. revert s Hb.
  induction (lt_wf b) as [b _ IH]. intros s -> Hs.
  assert (st_main s = MExit \/ st_main s <> MExit) as [Hexit|Hmain]
    by (destruct (st_main s); (by left) || (by right)).
  - exists [], s. done.
  - destruct (progress s Hs Hmain) as (l & s1 & Hstep).
    destruct (IH (budget n s1) (budget_step _ _ _ Hs Hstep) s1 eq_refl
                (inv_step _ _ _ Hs Hstep)) as (sched & s' & Hrun & Hexit).
    exists (l :: sched), s'. simpl. rewrite Hstep. done.
Qed.

(** Every run can be extended to one in which [main] returns. *)
Lemma run_extends sched s :
  run n cap sched init = Some s ->
  exists sched' s', run n cap (sched ++ sched') init = Some s' /\ drained s'.
Proof using Hn.
  intros Hrun.
  destruct (completion s (inv_reachable _ _ Hrun)) as (sched' & s' & Hrun' & Hd).
  exists sched', s'. by rewrite run_app, Hrun.
Qed.

(** *** The state in which [main] has returned *)

Lemma exit_state s :
  inv n cap s -> drained s ->
  st_closer s = CExit /\ st_ch s = Chan [] true /\ st_wg s = 0
  /\ live (st_workers s) = 0%nat
  /\ (st_workers s).*1 = seqZ 1 n
  /\ st_sent s ≡ₚ seqZ 1 n
  /\ st_stdout s = map worker_line (st_sent s).
Proof using Hn.
  intros [Hp Hids Hst Hm Hc Hwg Hsent Hfifo Hcap] Hmain.
  destruct s as [pcm ws pcc [buf closed] wg out pn sent].
  unfold drained in Hmain. inv_unfold. subst pn pcm.
  destruct Hm as (Hk & Hcc & Hbuf). subst pcc buf. simpl in *.
  destruct Hc as [Hcl Hlive]. subst closed.
  rewrite app_nil_r in Hfifo. rewrite Hk in Hids.
  repeat split; try done.
  - lia.
  - by rewrite Hsent, live_0_finished, Hids.
Qed.

Lemma exit_terminal s l : inv n cap s -> drained s -> step n cap l s = None.
Proof using Hn.
  intros Hs Hmain.
  destruct (exit_state s Hs Hmain) as (Hc & Hch & Hwg & Hlive & _).
  unfold step. destruct (st_panic s); [done|].
  destruct l as [|k|].
  - unfold main. by rewrite Hmain.
  - unfold worker.
    destruct (st_workers s !! k) as [[id pc]|] eqn:Hk; [|done].
    destruct pc; try done;
      (pose proof (live_lookup _ _ _ _ Hk ltac:(done)); lia).
  - unfold closer. by rewrite Hc.
Qed.

Lemma exit_count s :
  inv n cap s -> drained s -> Z.of_nat (length (st_stdout s)) = n.
Proof using Hn.
  intros Hs Hd. destruct (exit_state s Hs Hd) as (_ & _ & _ & _ & _ & Hp & ->).
  rewrite length_map, Hp, length_seqZ. lia.
Qed.

(** *** Closing the channel *)

(** A step closes the channel exactly when it executes [close(messages)];
    once the channel is closed no send completes. *)
Lemma step_closed l s s' :
  inv n cap s -> step n cap l s = Some s' ->
  ch_closed (st_ch s') = ch_closed (st_ch s) || is_close l s
  /\ (is_close l s = true -> ch_closed (st_ch s) = false)
  /\ (ch_closed (st_ch s) = true ->
      st_sent s' = st_sent s /\ st_workers s' = st_workers s).
Proof using Hn.
  intros Hs Hstep.
  pose proof (inv_panic _ _ _ (inv_step _ _ _ Hs Hstep)) as Hp'.
  destruct Hs as [Hp Hids Hst Hm Hc Hwg Hsent Hfifo Hcap].
  destruct s as [pcm ws pcc [buf closed] wg out pn sent].
  simpl in *. subst pn. inv_unfold. step_unfold Hstep.
  destruct l as [|k|].
  - destruct pcm as [i|i| | |]; simpl in *; try done.
    + destruct (i <=? n)%Z; [destruct (_ <? 0)%Z|]; simplify_eq; simpl;
        by rewrite orb_false_r.
    + destruct Hm as (_ & _ & ->). simpl in Hc. subst closed.
      by simplify_eq.
    + simplify_eq; simpl. by rewrite orb_false_r.
    + destruct buf as [|v rest]; [destruct closed|]; simplify_eq; simpl;
        by rewrite ?orb_false_r.
  - rewrite orb_false_r.
    destruct (ws !! k) as [[id pc]|] eqn:Hk; [|done].
    assert (pc <> WExit -> closed = false) as Hopen.
    { intros Hpc. pose proof (live_lookup _ _ _ _ Hk Hpc).
      destruct closed; [|done]. destruct pcc; try done; destruct Hc; lia. }
    destruct pc; [| |done]; rewrite Hopen in * by done; simpl in *.
    + destruct (_ <? _)%nat; [|destruct (_ && _)]; by simplify_eq.
    + destruct (_ <? 0)%Z; by simplify_eq.
  - destruct pcc; try done.
    + destruct (_ =? 0)%Z; simplify_eq; simpl. by rewrite ?orb_false_r.
    + destruct Hc as [-> _]. by simplify_eq.
Qed.

Lemma close_count_run sched : forall s s',
  inv n cap s -> run n cap sched s = Some s' ->
  (close_count n cap sched s + (if ch_closed (st_ch s) then 1 else 0)
   = (if ch_closed (st_ch s') then 1 else 0))%nat.
Proof using Hn.
  induction sched as [|l sched IH]; intros s s' Hs Hrun; simpl in *.
  - by simplify_eq.
  - destruct (step n cap l s) as [s1|] eqn:Hstep; [|done].
    specialize (IH _ _ (inv_step _ _ _ Hs Hstep) Hrun).
    destruct (step_closed _ _ _ Hs Hstep) as (Hcl & Hopen & _).
    rewrite Hcl in IH.
    destruct (is_close l s); [rewrite Hopen in * by done|];
      destruct (ch_closed (st_ch s)); simpl in *; lia.
Qed.

End Invariant.

(** ** Runs of the handbook's program *)

Lemma three_in_range : 0 <= 3 <= GoInt.max_int32.
Proof. unfold GoInt.max_int32. lia. Qed.

Lemma zero_in_range : 0 <= 0 <= GoInt.max_int32.
Proof. unfold GoInt.max_int32. lia. Qed.

Lemma run_sched_312 : handbook_run sched_312 init = Some final_312.
Proof. vm_compute. reflexivity. Qed.

Lemma run_sched_empty cap : run 0 cap sched_empty init = Some final_empty.
Proof. reflexivity. Qed.

(** No goroutine of the program ever panics: no send on a closed channel,
    no second [close], no negative wait group counter. *)
Lemma never_panics n cap sched s :
  0 <= n <= GoInt.max_int32 -> run n cap sched init = Some s -> st_panic s = false.
Proof. intros Hn Hrun. eapply inv_panic, inv_reachable; eauto. Qed.

(** With a buffered channel [close(messages)] can run while every message
    still waits in the buffer: [main] then prints them from the closed
    channel. *)
Lemma close_before_receipt :
  handbook_run
    [LMain; LMain; LMain; LMain; LMain; LMain; LMain; LMain;
     LWorker 0; LWorker 1; LWorker 2; LWorker 0; LWorker 1; LWorker 2;
     LCloser; LCloser] init
  = Some (State MRange [(1, WExit); (2, WExit); (3, WExit)] CExit
            (Chan [worker_msg 1; worker_msg 2; worker_msg 3] true) 0 []
            false [1; 2; 3]).
Proof. reflexivity. Qed.

(** Every order of the three workers is the order of some complete run. *)
Lemma run_sched_order (k1 k2 k3 : nat) :
  [k1; k2; k3] ∈ permutations [0; 1; 2]%nat ->
  handbook_run (sched_order k1 k2 k3) init
  = Some (final_order [Z.of_nat k1 + 1; Z.of_nat k2 + 1; Z.of_nat k3 + 1]).
Proof.
  intros Hperm. vm_compute permutations in Hperm.
  repeat (apply elem_of_cons in Hperm as [Hperm | Hperm];
          [injection Hperm as -> -> ->; vm_compute; reflexivity|]).
  by apply elem_of_nil in Hperm.
Qed.

Lemma every_order_runs (order : list Z) :
  order ≡ₚ [1; 2; 3] ->
  exists sched s,
    handbook_run sched init = Some s /\ drained s
    /\ st_stdout s = map worker_line order.
Proof.
  intros Hperm.
  assert (exists k1 k2 k3,
            order = [Z.of_nat k1 + 1; Z.of_nat k2 + 1; Z.of_nat k3 + 1]
            /\ [k1; k2; k3] ∈ permutations [0; 1; 2]%nat)
    as (k1 & k2 & k3 & -> & Hk).
  { symmetry in Hperm. apply permutations_Permutation in Hperm.
    vm_compute permutations in Hperm.
    repeat (apply elem_of_cons in Hperm as [-> | Hperm]);
      [ exists 0%nat, 1%nat, 2%nat | exists 1%nat, 0%nat, 2%nat
      | exists 1%nat, 2%nat, 0%nat | exists 0%nat, 2%nat, 1%nat
      | exists 2%nat, 0%nat, 1%nat | exists 2%nat, 1%nat, 0%nat | ];
      [ split; [reflexivity | vm_compute; repeat constructor] .. | ].
    by apply elem_of_nil in Hperm. }
  exists (sched_order k1 k2 k3), (final_order [Z.of_nat k1 + 1; Z.of_nat k2 + 1; Z.of_nat k3 + 1]).
  split; [by apply run_sched_order|]. split; reflexivity.
Qed.

(** Without workers the program has one run. *)
Lemma empty_run_prefix cap sched s :
  run 0 cap sched init = Some s -> sched `prefix_of` sched_empty.
Proof.
  unfold sched_empty. intros Hrun.
  repeat (destruct sched as [|[|k|] sched];
          [ by apply prefix_nil | simpl in Hrun; try discriminate .. ];
          apply prefix_cons).
  all: destruct sched as [|[|k|] sched]; [done| discriminate ..].
Qed.

(** * Part IV: the properties of the programs *)

Section Dispatch.

(** The program with [n] workers on a channel of capacity [cap], for every
    [n] from 0 to the largest count a wait group holds, and a run [sched] of
    it that reaches the state [s]. *)
Variable n : Z.
Variable cap : nat.
Hypothesis Hn : 0 <= n <= GoInt.max_int32.

Variable sched : list label.
Variable s : state.
Hypothesis Hrun : run n cap sched init = Some s.

(** C1: for every N >= 0, the program with N workers yields exactly N
    results and then the stream ends.  Every run takes at most 5N+5 steps
    and has printed at most N lines; as long as the range loop of [main] has
    not ended some goroutine can move, and the run extends to one where the
    loop has ended; when it has ended exactly N lines were printed and no
    goroutine can move any more, so no result comes after the end. *)
Theorem submit_yields_n_results :
  (length sched <= 5 * Z.to_nat n + 5)%nat
  /\ Z.of_nat (length (st_stdout s)) <= n
  /\ (~ drained s -> exists l s', step n cap l s = Some s')
  /\ (exists sched' s', run n cap (sched ++ sched') init = Some s' /\ drained s')
  /\ (drained s ->
      Z.of_nat (length (st_stdout s)) = n
      /\ forall l, step n cap l s = None).
Proof using Hn Hrun.
  pose proof (inv_reachable n cap Hn _ _ Hrun) as Hs.
  split; [by eapply run_length|].
  split; [by eapply inv_stdout_le|].
  split; [by apply progress|].
  split; [by eapply run_extends|].
  intros Hd. split; [by eapply exit_count|].
  intros l. by eapply exit_terminal.
Qed.

(** C2: when the stream has ended, every started worker has produced
    exactly one result.  The workers started are 1..N; the lines printed
    are the lines of the identifiers in the order their sends completed;
    that order is a permutation of 1..N without repetition, so is the list
    of identifiers the printed lines name: none lost, none duplicated. *)
Theorem results_match_submitted :
  drained s ->
  (st_workers s).*1 = seqZ 1 n
  /\ st_stdout s = map worker_line (st_sent s)
  /\ map result_id (st_stdout s) = map Some (st_sent s)
  /\ st_sent s ≡ₚ seqZ 1 n
  /\ NoDup (st_sent s)
  /\ st_stdout s ≡ₚ map worker_line (seqZ 1 n)
  /\ NoDup (st_stdout s).
Proof using Hn Hrun.
  intros Hd.
  pose proof (inv_reachable n cap Hn _ _ Hrun) as Hs.
  destruct (exit_state n cap Hn s Hs Hd) as (_ & _ & _ & _ & Hids & Hperm & Hout).
  assert (Hnd : NoDup (st_sent s)) by (rewrite Hperm; apply NoDup_seqZ).
  repeat split; try done.
  - rewrite Hout. apply result_id_lines.
  - rewrite Hout. by apply Permutation_map.
  - rewrite Hout. by apply (NoDup_fmap_2 worker_line).
Qed.

(** C3: [close(messages)] is executed exactly once in a session: the
    number of closing steps of a run is 1 if the channel is closed and 0
    otherwise, and every run extends to one that has closed it.  It is
    executed only after the N-th result has been sent into the channel: in a
    closed channel's state the N results are printed or buffered.  After it
    no send completes and the channel stays closed.  The range loop of
    [main] ends only on a closed channel with all N results printed, and
    from that state no goroutine moves. *)
Theorem closes_exactly_once :
  close_count n cap sched init = (if ch_closed (st_ch s) then 1 else 0)%nat
  /\ (exists sched' s',
        run n cap (sched ++ sched') init = Some s' /\ drained s'
        /\ close_count n cap (sched ++ sched') init = 1%nat)
  /\ (ch_closed (st_ch s) = true ->
      st_sent s ≡ₚ seqZ 1 n
      /\ Z.of_nat (length (st_stdout s) + length (ch_buf (st_ch s))) = n)
  /\ (ch_closed (st_ch s) = true ->
      forall l s', step n cap l s = Some s' ->
        ch_closed (st_ch s') = true /\ st_sent s' = st_sent s)
  /\ (drained s ->
      ch_closed (st_ch s) = true
      /\ Z.of_nat (length (st_stdout s)) = n
      /\ forall l, step n cap l s = None).
Proof using Hn Hrun.
  pose proof (inv_reachable n cap Hn _ _ Hrun) as Hs.
  split.
  { pose proof (close_count_run n cap Hn _ _ _ (inv_init n cap Hn) Hrun) as H.
    simpl in H. lia. }
  split.
  { destruct (run_extends n cap Hn _ _ Hrun) as (sched' & s' & Hrun' & Hd).
    exists sched', s'. repeat split; try done.
    pose proof (close_count_run n cap Hn _ _ _ (inv_init n cap Hn) Hrun') as H.
    destruct (exit_state n cap Hn s' (inv_reachable n cap Hn _ _ Hrun') Hd)
      as (_ & Hch & _).
    rewrite Hch in H. simpl in H. lia. }
  split.
  { intros Hcl.
    pose proof (inv_all_sent n cap s Hs (or_intror Hcl)) as Hperm.
    split; [done|].
    pose proof (inv_fifo _ _ _ Hs) as Hfifo. apply (f_equal length) in Hfifo.
    rewrite length_app, !length_map, Hperm, length_seqZ in Hfifo. lia. }
  split.
  { intros Hcl l s' Hstep.
    destruct (step_closed n cap Hn _ _ _ Hs Hstep) as (Hcl' & _ & Hsent).
    rewrite Hcl in Hcl'. split; [done|]. by apply Hsent. }
  intros Hd.
  destruct (exit_state n cap Hn s Hs Hd) as (_ & Hch & _).
  split; [by rewrite Hch|].
  split; [by eapply exit_count|].
  intros l. by eapply exit_terminal.
Qed.

(** C7: results come out in completion order, and that order is not
    fixed.  In every state the lines printed followed by the lines still
    buffered are the lines of the identifiers in the order their sends
    completed, so what was sent first is printed first; at the end the
    printed lines are exactly that order, a permutation of 1..N.  For the
    three workers of the handbook every one of the six orders is the output
    of some complete run, so only the set of identifiers can be asserted. *)
Theorem completion_order :
  st_stdout s ++ map line (ch_buf (st_ch s)) = map worker_line (st_sent s)
  /\ (drained s ->
      st_stdout s = map worker_line (st_sent s) /\ st_sent s ≡ₚ seqZ 1 n)
  /\ (forall order, order ≡ₚ [1; 2; 3] ->
      exists sched' s',
        handbook_run sched' init = Some s' /\ drained s'
        /\ st_stdout s' = map worker_line order).
Proof using Hn Hrun.
  pose proof (inv_reachable n cap Hn _ _ Hrun) as Hs.
  split; [by apply (inv_fifo _ _ _ Hs)|].
  split; [|apply every_order_runs].
  intros Hd.
  by destruct (exit_state n cap Hn s Hs Hd) as (_ & _ & _ & _ & _ & Hperm & Hout).
Qed.

End Dispatch.

Lemma submit_yields_n_results_witness :
  0 <= 3 <= GoInt.max_int32
  /\ run 3 3 sched_312 init = Some final_312
  /\ Z.of_nat (length (st_stdout final_312)) = 3.
Proof.
  assert (Hn : 0 <= 3 <= GoInt.max_int32) by (unfold GoInt.max_int32; lia).
  assert (Hrun : run 3 3 sched_312 init = Some final_312) by reflexivity.
  split; [exact Hn|]. split; [exact Hrun|].
  destruct (submit_yields_n_results 3 3 Hn sched_312 final_312 Hrun)
    as (_ & _ & _ & _ & Hd).
  apply Hd. reflexivity.
Defined.

Lemma results_match_submitted_witness :
  0 <= 3 <= GoInt.max_int32
  /\ run 3 3 sched_312 init = Some final_312
  /\ drained final_312
  /\ map result_id (st_stdout final_312) = map Some [3; 1; 2].
Proof.
  assert (Hn : 0 <= 3 <= GoInt.max_int32) by (unfold GoInt.max_int32; lia).
  assert (Hrun : run 3 3 sched_312 init = Some final_312) by reflexivity.
  assert (Hd : drained final_312) by reflexivity.
  split; [exact Hn|]. split; [exact Hrun|]. split; [exact Hd|].
  destruct (results_match_submitted 3 3 Hn sched_312 final_312 Hrun Hd)
    as (_ & _ & H & _).
  exact H.
Defined.

Lemma closes_exactly_once_witness :
  0 <= 3 <= GoInt.max_int32
  /\ run 3 3 sched_312 init = Some final_312
  /\ close_count 3 3 sched_312 init = 1%nat.
Proof.
  assert (Hn : 0 <= 3 <= GoInt.max_int32) by (unfold GoInt.max_int32; lia).
  assert (Hrun : run 3 3 sched_312 init = Some final_312) by reflexivity.
  split; [exact Hn|]. split; [exact Hrun|].
  destruct (closes_exactly_once 3 3 Hn sched_312 final_312 Hrun) as (H & _).
  exact H.
Defined.

Lemma completion_order_witness :
  0 <= 3 <= GoInt.max_int32
  /\ run 3 3 sched_312 init = Some final_312
  /\ st_stdout final_312 = map worker_line [3; 1; 2].
Proof.
  assert (Hn : 0 <= 3 <= GoInt.max_int32) by (unfold GoInt.max_int32; lia).
  assert (Hrun : run 3 3 sched_312 init = Some final_312) by reflexivity.
  split; [exact Hn|]. split; [exact Hrun|].
  destruct (completion_order 3 3 Hn sched_312 final_312 Hrun) as (_ & H & _).
  apply H. reflexivity.
Defined.

(** C5: with no task (N = 0) the stream ends at once with zero results
    and no worker is started.  The program then has a single run of five
    steps, the exit from the loop, the start of the closing goroutine, its
    [wg.Wait()] and [close(messages)], and the end of the range loop; at
    every point of it no worker exists, nothing was sent and nothing was
    printed, and after it no goroutine moves. *)
Theorem empty_submission (cap : nat) (sched : list label) (s : state) :
  run 0 cap sched init = Some s ->
  sched `prefix_of` sched_empty
  /\ st_workers s = []
  /\ st_sent s = []
  /\ st_stdout s = []
  /\ run 0 cap sched_empty init = Some final_empty
  /\ (drained s -> s = final_empty /\ forall l, step 0 cap l s = None).
Proof.
  intros Hrun.
  pose proof (inv_reachable 0 cap zero_in_range _ _ Hrun) as Hs.
  assert (Hws : st_workers s = []).
  { pose proof (inv_started _ _ _ Hs) as H. unfold started in H.
    destruct (st_workers s); [done|simpl in H; lia]. }
  assert (Hsent : st_sent s = []).
  { pose proof (inv_sent _ _ _ Hs) as H. rewrite Hws in H.
    by apply Permutation_nil_r in H. }
  assert (Hout : st_stdout s = []).
  { pose proof (inv_fifo _ _ _ Hs) as H. rewrite Hsent in H.
    by apply app_eq_nil in H as [H _]. }
  split; [by eapply empty_run_prefix|].
  split; [done|]. split; [done|]. split; [done|].
  split; [apply run_sched_empty|].
  intros Hd. split.
  - destruct (exit_state 0 cap zero_in_range s Hs Hd) as (Hc & Hch & Hwg & _).
    pose proof (inv_panic _ _ _ Hs) as Hp.
    destruct s; simpl in *; unfold drained in Hd; simpl in Hd.
    unfold final_empty. congruence.
  - intros l. by eapply exit_terminal; [exact zero_in_range|..].
Qed.

Lemma empty_submission_witness :
  run 0 3 sched_empty init = Some final_empty
  /\ st_workers final_empty = [] /\ st_stdout final_empty = [].
Proof.
  assert (Hrun : run 0 3 sched_empty init = Some final_empty) by reflexivity.
  split; [exact Hrun|].
  destruct (empty_submission 3 sched_empty final_empty Hrun)
    as (_ & Hws & _ & Hout & _).
  split; [exact Hws | exact Hout].
Defined.

(** C6: the handbook's program, with workers 1, 2 and 3 each sending
    "Worker {id} completed task", yields exactly 3 results whose
    identifiers are exactly 1, 2, 3, each the pattern filled with its own
    identifier, and the stream ends after the third.  Every run takes at
    most 20 steps and extends to one in which the range loop has ended; when
    it has ended the three lines printed are a permutation of the three
    texts, the identifiers they name are a permutation of 1, 2, 3, every line
    is the text of the identifier it names, and no goroutine moves. *)
Theorem three_workers (sched : list label) (s : state) :
  handbook_run sched init = Some s ->
  (length sched <= 20)%nat
  /\ (length (st_stdout s) <= 3)%nat
  /\ (exists sched' s', handbook_run (sched ++ sched') init = Some s' /\ drained s')
  /\ (drained s ->
      length (st_stdout s) = 3%nat
      /\ st_stdout s ≡ₚ [line "Worker 1 completed task";
                          line "Worker 2 completed task";
                          line "Worker 3 completed task"]
      /\ map result_id (st_stdout s) ≡ₚ [Some 1; Some 2; Some 3]
      /\ Forall (fun l => exists id, result_id l = Some id /\ l = line (worker_msg id))
           (st_stdout s)
      /\ forall l, handbook_step l s = None).
Proof.
  unfold handbook_run, handbook_step. intros Hrun.
  pose proof (inv_reachable 3 3 three_in_range _ _ Hrun) as Hs.
  split; [by apply (run_length 3 3 three_in_range _ _ Hrun)|].
  split; [pose proof (inv_stdout_le 3 3 s Hs); lia|].
  split; [by eapply run_extends; [exact three_in_range|]|].
  intros Hd.
  destruct (exit_state 3 3 three_in_range s Hs Hd) as (_ & _ & _ & _ & _ & Hperm & Hout).
  split; [pose proof (exit_count 3 3 three_in_range s Hs Hd); lia|].
  split; [rewrite Hout; by apply (Permutation_map worker_line) in Hperm|].
  split.
  { rewrite Hout, result_id_lines. by apply (Permutation_map Some) in Hperm. }
  split.
  { rewrite Hout. clear. induction (st_sent s) as [|id ids IH]; simpl.
    - constructor.
    - constructor; [|exact IH].
      exists id. split; [apply result_id_worker_line|done]. }
  intros l. by eapply exit_terminal; [exact three_in_range|..].
Qed.

Lemma three_workers_witness :
  handbook_run sched_312 init = Some final_312
  /\ length (st_stdout final_312) = 3%nat.
Proof.
  assert (Hrun : handbook_run sched_312 init = Some final_312) by reflexivity.
  split; [exact Hrun|].
  destruct (three_workers sched_312 final_312 Hrun) as (_ & _ & _ & Hd).
  apply Hd. reflexivity.
Defined.

(** ** [main.go] *)

Section Greeting.

Local Open Scope string_scope.

Lemma greet_nonempty name : name <> EmptyString -> Handbook.greet name = "Hello, " +:+ name +:+ "!".
Proof.
  intros Hne. unfold Handbook.greet.
  destruct (String.eqb_spec name EmptyString); [done|]. reflexivity.
Qed.

(** C8: for every string [name], [greet] returns "Hello, " followed by
    [name] and "!" when [name] is not empty, and "Hello, World!" when it is
    empty; whatever the name, the result starts with "Hello, " and its last
    character is the exclamation mark. *)
Theorem greet_spec (name : string) :
  (name <> EmptyString -> Handbook.greet name = "Hello, " +:+ name +:+ "!")
  /\ (name = EmptyString -> Handbook.greet name = "Hello, World!")
  /\ String.prefix "Hello, " (Handbook.greet name) = true
  /\ last_char (Handbook.greet name) = Some "!"%char.
Proof.
  split; [apply greet_nonempty|].
  split; [by intros ->|].
  destruct (String.eqb_spec name EmptyString) as [->|Hne]; [done|].
  rewrite greet_nonempty by done. split.
  - apply prefix_append.
  - rewrite <- append_assoc. apply last_char_append.
Qed.

Lemma greet_spec_witness :
  "Gopher" <> EmptyString /\ Handbook.greet "Gopher" = "Hello, Gopher!".
Proof.
  assert (H : "Gopher" <> EmptyString) by discriminate.
  split; [exact H|].
  exact (proj1 (greet_spec "Gopher") H).
Defined.

End Greeting.

(** C9: for every integer [n], negative ones included, [isEven n] is true
    exactly when 2 divides [n]; the remainder of Go has the sign of the
    dividend, so it is 0, 1 or -1, and 0 exactly for the even numbers. *)
Theorem isEven_spec (n : Z) :
  (Handbook.isEven n = true <-> (2 | n))
  /\ (Handbook.isEven n = false <-> GoInt.rem n 2 = 1 \/ GoInt.rem n 2 = -1)
  /\ Handbook.isEven n = Z.even n.
Proof.
  unfold Handbook.isEven. rewrite rem_2_exact.
  pose proof (Z.rem_bound_abs n 2 ltac:(lia)) as Hb.
  split; [|split].
  - rewrite Z.eqb_eq. split.
    + intros H. apply Z.rem_divide; [lia|done].
    + intros H. apply Z.rem_divide in H; [done|lia].
  - rewrite Z.eqb_neq. lia.
  - destruct (Z.eqb_spec (Z.rem n 2) 0) as [H|H].
    + symmetry. apply Z.even_spec. apply Z.rem_divide in H; [|lia].
      destruct H as [k ->]. exists k. lia.
    + symmetry. apply not_true_is_false. intros He. apply H.
      apply Z.even_spec in He as [k ->].
      rewrite Z.mul_comm. apply Z.rem_mul. lia.
Qed.

Lemma isEven_spec_witness :
  (2 | -4) /\ Handbook.isEven (-4) = true.
Proof.
  assert (H : (2 | -4)) by (exists (-2); reflexivity).
  split; [exact H|].
  exact (proj2 (proj1 (isEven_spec (-4))) H).
Defined.

Section Numbers.

Local Open Scope string_scope.
Local Open Scope list_scope.

Lemma print_colors_lines visit : forall out,
  Handbook.print_colors visit out
  = out ++ map (fun e => line (e.1 +:+ ": " +:+ e.2)) visit.
Proof.
  induction visit as [|[name hex] visit IH]; intros out; simpl.
  - by rewrite app_nil_r.
  - rewrite IH. unfold Printf, line. rewrite <- app_assoc, !append_assoc.
    reflexivity.
Qed.

Lemma check_numbers_S fuel i out :
  Handbook.check_numbers (S fuel) i out
  = if (i <=? 5)%Z
    then Handbook.check_numbers fuel (GoInt.incr i) (Handbook.check_number i out)
    else Some out.
Proof. reflexivity. Qed.

Ltac loop_iteration i j :=
  rewrite check_numbers_S;
  change (i <=? 5)%Z with true; cbv iota;
  change (GoInt.incr i) with j.

(** The loop from 1 makes five iterations and stops at the sixth test. *)
Lemma check_numbers_run fuel out :
  Handbook.check_numbers (S (S (S (S (S (S fuel)))))) 1 out
  = Some (out ++ [line "1 is odd"; line "2 is even"; line "3 is odd";
                  line "4 is even"; line "5 is odd"]).
Proof.
  loop_iteration 1 2. loop_iteration 2 3. loop_iteration 3 4.
  loop_iteration 4 5. loop_iteration 5 6.
  rewrite check_numbers_S. change (6 <=? 5)%Z with false. cbv iota.
  unfold Handbook.check_number.
  change (Handbook.isEven 1) with false. change (Handbook.isEven 2) with true.
  change (Handbook.isEven 3) with false. change (Handbook.isEven 4) with true.
  change (Handbook.isEven 5) with false. cbv iota.
  unfold Printf. rewrite <- !app_assoc. reflexivity.
Qed.

(** C10: the number-checking loop of [main] prints, for each [i] from 1
    to 5 in increasing order, exactly one line, "i is even" when [isEven i]
    holds and "i is odd" otherwise: five lines, odd, even, odd, even, odd.
    With at least six loop tests allowed the loop ends and has appended
    exactly these lines, and they stand in the output of [main] between the
    heading and the line of the numbers. *)
Theorem check_numbers_lines (fuel : nat) (out : stdout) (visit : list (string * string)) :
  (6 <= fuel)%nat ->
  Handbook.check_numbers fuel 1 out
  = Some (out ++ [line "1 is odd"; line "2 is even"; line "3 is odd";
                  line "4 is even"; line "5 is odd"])
  /\ Handbook.check_numbers fuel 1 out
     = Some (out ++ map (fun i => line (fmt_d i +:+
                           (if Handbook.isEven i then " is even" else " is odd")))
                      [1; 2; 3; 4; 5])
  /\ Handbook.main fuel visit
     = Some ([line "Hello, Gopher!"; line (nl +:+ "Checking numbers from 1 to 5:")]
             ++ [line "1 is odd"; line "2 is even"; line "3 is odd";
                 line "4 is even"; line "5 is odd"]
             ++ [line (nl +:+ "Numbers: [1 2 3 4 5]"); line (nl +:+ "Colors:")]
             ++ map (fun e => line (e.1 +:+ ": " +:+ e.2)) visit).
Proof.
  intros Hfuel.
  do 6 (destruct fuel as [|fuel]; [lia|]).
  split; [apply check_numbers_run|]. split; [by rewrite check_numbers_run|].
  unfold Handbook.main. rewrite check_numbers_run.
  rewrite print_colors_lines. reflexivity.
Qed.

Lemma check_numbers_lines_witness :
  (6 <= 6)%nat
  /\ Handbook.check_numbers 6 1 []
     = Some [line "1 is odd"; line "2 is even"; line "3 is odd";
             line "4 is even"; line "5 is odd"].
Proof.
  assert (H : (6 <= 6)%nat) by apply le_n.
  split; [exact H|].
  exact (proj1 (check_numbers_lines 6 [] Handbook.colors H)).
Defined.

End Numbers.

(** * Part V: further properties *)

(** ** [main.go]: [isEven], [greet], the loop and [main] *)

Section HandbookMore.

Import HandbookSpec.
Local Open Scope string_scope.
Local Open Scope list_scope.

Lemma isEven_even n : Handbook.isEven n = Z.even n.
Proof.
  unfold Handbook.isEven. rewrite rem_2_exact.
  pose proof (Z.rem_bound_abs n 2 ltac:(lia)) as Hb.
  destruct (Z.eqb_spec (Z.rem n 2) 0) as [H|H]; symmetry.
  - apply Z.even_spec. apply Z.rem_divide in H; [|lia].
    destruct H as [k ->]. exists k. lia.
  - apply not_true_is_false. intros He. apply H.
    apply Z.even_spec in He as [k ->].
    rewrite Z.mul_comm. apply Z.rem_mul. lia.
Qed.

(** Reducing into [int] keeps the parity. *)
Lemma wrap_even z : Z.even (GoInt.wrap z) = Z.even z.
Proof.
  unfold GoInt.wrap.
  rewrite (Z.mod_eq (z + 2 ^ 63) (2 ^ 64)) by lia.
  replace (z + 2 ^ 63 - 2 ^ 64 * ((z + 2 ^ 63) / 2 ^ 64) - 2 ^ 63)
    with (z + 2 * (- 2 ^ 63 * ((z + 2 ^ 63) / 2 ^ 64))) by lia.
  apply Z.even_add_mul_2.
Qed.

(** X1: [i++] always flips [isEven], also when [i] is the largest int and
    [i++] wraps around to the smallest. *)
Theorem isEven_incr (n : Z) :
  Handbook.isEven (GoInt.incr n) = negb (Handbook.isEven n).
Proof.
  rewrite !isEven_even. unfold GoInt.incr. rewrite wrap_even.
  replace (n + 1) with (Z.succ n) by lia.
  by rewrite Z.even_succ, <- Z.negb_even.
Qed.

Lemma greet_greeted name :
  Handbook.greet name = "Hello, " +:+ greeted name +:+ "!".
Proof. reflexivity. Qed.

(** X2: the name can be read back from the greeting: the text between
    "Hello, " and the final "!" of [greet name] is [name] itself, whatever
    bytes it holds, and "World" for the empty name. *)
Theorem greet_name_back (name : string) :
  between "Hello, " "!" (Handbook.greet name) = Some (greeted name)
  /\ (name <> EmptyString ->
      between "Hello, " "!" (Handbook.greet name) = Some name).
Proof.
  rewrite greet_greeted, between_append. split; [done|].
  intros Hne. unfold greeted. by destruct (String.eqb_spec name EmptyString).
Qed.

Lemma greet_name_back_witness :
  "Gopher" <> EmptyString
  /\ between "Hello, " "!" (Handbook.greet "Gopher") = Some "Gopher".
Proof.
  assert (H : "Gopher" <> EmptyString) by discriminate.
  split; [exact H|].
  exact (proj2 (greet_name_back "Gopher") H).
Defined.

(** X3: two names get the same greeting exactly when they are equal or
    one is empty and the other is "World": apart from that one collision
    [greet] is injective. *)
Theorem greet_collisions (a b : string) :
  Handbook.greet a = Handbook.greet b
  <-> a = b
      \/ (a = EmptyString /\ b = "World")
      \/ (a = "World" /\ b = EmptyString).
Proof.
  split.
  - intros H. apply (f_equal (between "Hello, " "!")) in H.
    rewrite !greet_greeted, !between_append in H. injection H as H.
    unfold greeted in H.
    destruct (String.eqb_spec a EmptyString) as [Ha|Ha];
      destruct (String.eqb_spec b EmptyString) as [Hb|Hb]; subst; auto.
  - intros [-> | [[-> ->] | [-> ->]]]; reflexivity.
Qed.

Lemma greet_collisions_witness :
  Handbook.greet EmptyString = Handbook.greet "World".
Proof.
  apply (proj2 (greet_collisions EmptyString "World")).
  right. left. split; reflexivity.
Defined.

Lemma check_number_line i out :
  Handbook.check_number i out = out ++ [number_line i].
Proof.
  unfold Handbook.check_number, number_line, Printf, line.
  destruct (Handbook.isEven i); rewrite append_assoc; reflexivity.
Qed.

Lemma seqZ_head i len : 0 < len -> seqZ i len = i :: seqZ (i + 1) (len - 1).
Proof.
  intros H. rewrite seqZ_cons by done.
  by replace (Z.succ i) with (i + 1) by lia; replace (Z.pred len) with (len - 1) by lia.
Qed.

(** X4: started at any [i], the number-checking loop prints one line for
    each of [i], [i+1], ..., 5 in increasing order after what was printed
    before, "even" or "odd" as [isEven] says, and nothing when [i] is above
    5; it needs one loop test more than the lines it prints. *)
Theorem check_numbers_from (fuel : nat) (i : Z) (out : stdout) :
  GoInt.min_int <= i <= 6 ->
  (Z.to_nat (6 - i) < fuel)%nat ->
  Handbook.check_numbers fuel i out
  = Some (out ++ map number_line (seqZ i (6 - i))).
Proof.
  revert i out. induction fuel as [|fuel IH]; intros i out Hi Hfuel; [lia|].
  rewrite check_numbers_S.
  destruct (Z.leb_spec i 5) as [Hle|Hgt].
  - rewrite incr_no_overflow by (unfold GoInt.min_int, GoInt.max_int in *; lia).
    rewrite IH by lia.
    rewrite check_number_line, <- app_assoc. simpl.
    rewrite (seqZ_head i (6 - i)) by lia. simpl.
    by replace (6 - (i + 1)) with (6 - i - 1) by lia.
  - replace (6 - i) with 0 by lia. by rewrite app_nil_r.
Qed.

Lemma check_numbers_from_witness :
  Handbook.check_numbers 3 4 [] = Some [line "4 is even"; line "5 is odd"].
Proof.
  assert (Hi : GoInt.min_int <= 4 <= 6) by (unfold GoInt.min_int; lia).
  assert (Hf : (Z.to_nat (6 - 4) < 3)%nat) by (simpl; lia).
  exact (check_numbers_from 3 4 [] Hi Hf).
Defined.

Lemma main_output fuel visit :
  (6 <= fuel)%nat ->
  Handbook.main fuel visit = Some (main_head ++ map color_line visit).
Proof.
  intros Hfuel. do 6 (destruct fuel as [|fuel]; [lia|]).
  unfold Handbook.main. rewrite check_numbers_run, print_colors_lines.
  reflexivity.
Qed.

(** X5: whatever order the runtime picks for the map, [main] writes the
    same nine lines first and then one line for every colour exactly once:
    two runs differ only by a permutation of their last three writes, and
    every run makes twelve writes. *)
Theorem main_up_to_map_order (fuel : nat) (visit1 visit2 : list (string * string)) :
  (6 <= fuel)%nat ->
  visit1 ≡ₚ Handbook.colors ->
  visit2 ≡ₚ Handbook.colors ->
  exists tail1 tail2,
    Handbook.main fuel visit1 = Some (main_head ++ tail1)
    /\ Handbook.main fuel visit2 = Some (main_head ++ tail2)
    /\ tail1 ≡ₚ tail2
    /\ tail1 ≡ₚ [line "red: #ff0000"; line "green: #00ff00"; line "blue: #0000ff"]
    /\ length (main_head ++ tail1) = 12%nat.
Proof.
  intros Hfuel H1 H2.
  exists (map color_line visit1), (map color_line visit2).
  rewrite !main_output by done. repeat split.
  - by rewrite H1, H2.
  - by apply (Permutation_map color_line) in H1.
  - rewrite length_app, length_map, H1. reflexivity.
Qed.

Lemma main_up_to_map_order_witness :
  exists tail1 tail2,
    Handbook.main 6 Handbook.colors = Some (main_head ++ tail1)
    /\ Handbook.main 6 (rev Handbook.colors) = Some (main_head ++ tail2)
    /\ tail1 ≡ₚ tail2
    /\ tail1 ≡ₚ [line "red: #ff0000"; line "green: #00ff00"; line "blue: #0000ff"]
    /\ length (main_head ++ tail1) = 12%nat.
Proof.
  assert (Hf : (6 <= 6)%nat) by apply le_n.
  assert (H1 : Handbook.colors ≡ₚ Handbook.colors) by apply Permutation_refl.
  assert (H2 : rev Handbook.colors ≡ₚ Handbook.colors)
    by (apply Permutation_sym, Permutation_rev).
  exact (main_up_to_map_order 6 Handbook.colors (rev Handbook.colors) Hf H1 H2).
Defined.

End HandbookMore.

(** ** The "Functions" section: [multiply] and [processData] *)

Section FunctionsMore.

Import Functions.
Local Open Scope string_scope.

Lemma wrap_range z : GoInt.in_range (GoInt.wrap z).
Proof.
  unfold GoInt.in_range, GoInt.wrap, GoInt.min_int, GoInt.max_int.
  pose proof (Z.mod_pos_bound (z + 2 ^ 63) (2 ^ 64) ltac:(lia)). lia.
Qed.

(** Reducing into [int] forgets multiples of 2^64. *)
Lemma wrap_add_multiple z k : GoInt.wrap (z + k * 2 ^ 64) = GoInt.wrap z.
Proof.
  unfold GoInt.wrap.
  replace (z + k * 2 ^ 64 + 2 ^ 63) with (z + 2 ^ 63 + k * 2 ^ 64) by lia.
  by rewrite Z.mod_add by lia.
Qed.

Lemma wrap_congruent z : exists k, GoInt.wrap z = z + k * 2 ^ 64.
Proof.
  exists (- ((z + 2 ^ 63) / 2 ^ 64)). unfold GoInt.wrap.
  rewrite (Z.mod_eq (z + 2 ^ 63) (2 ^ 64)) by lia. lia.
Qed.

Lemma wrap_mul_l a b : GoInt.wrap (GoInt.wrap a * b) = GoInt.wrap (a * b).
Proof.
  destruct (wrap_congruent a) as [k ->].
  replace ((a + k * 2 ^ 64) * b) with (a * b + (k * b) * 2 ^ 64) by lia.
  apply wrap_add_multiple.
Qed.

(** X6: [multiply] returns the product whenever the product is an int, and
    an int in every case. *)
Theorem multiply_exact (a b : Z) :
  GoInt.in_range (multiply a b)
  /\ (GoInt.in_range (a * b) -> multiply a b = a * b).
Proof.
  unfold multiply. split; [apply wrap_range | apply wrap_in_range].
Qed.

Lemma multiply_exact_witness :
  GoInt.in_range ((-3) * 7) /\ multiply (-3) 7 = -21.
Proof.
  assert (H : GoInt.in_range ((-3) * 7))
    by (unfold GoInt.in_range, GoInt.min_int, GoInt.max_int; lia).
  split; [exact H|].
  exact (proj2 (multiply_exact (-3) 7) H).
Defined.

(** X7: overflow does not disturb the algebra of [multiply]: it is
    commutative and associative on all arguments, with the wrap-around of
    intermediate products included, and 1 is neutral on ints. *)
Theorem multiply_algebra (a b c : Z) :
  multiply a b = multiply b a
  /\ multiply (multiply a b) c = multiply a (multiply b c)
  /\ (GoInt.in_range a -> multiply a 1 = a /\ multiply 1 a = a).
Proof.
  unfold multiply. split; [by rewrite Z.mul_comm|]. split.
  - rewrite wrap_mul_l.
    rewrite (Z.mul_comm a (GoInt.wrap (b * c))), wrap_mul_l.
    f_equal. lia.
  - intros Ha. rewrite Z.mul_1_r, Z.mul_1_l. split; by apply wrap_in_range.
Qed.

Lemma multiply_algebra_witness :
  GoInt.in_range 5 /\ multiply 5 1 = 5.
Proof.
  assert (H : GoInt.in_range 5)
    by (unfold GoInt.in_range, GoInt.min_int, GoInt.max_int; lia).
  split; [exact H|].
  exact (proj1 (proj2 (proj2 (multiply_algebra 5 0 0)) H)).
Defined.

Lemma length_0_empty s : (String.length s =? 0)%nat = true <-> s = EmptyString.
Proof. destruct s; simpl; split; done. Qed.

Lemma upper_ascii_length s : String.length (upper_ascii s) = String.length s.
Proof. induction s as [|c s IH]; simpl; congruence. Qed.

Lemma upper_byte_not_lower c :
  (nat_of_ascii c < 128)%nat -> is_lower (upper_byte c) = false.
Proof.
  intros Hc. unfold upper_byte.
  destruct (is_lower c) eqn:E; [|done].
  unfold is_lower in *. apply andb_true_iff in E as [E1 E2].
  apply Nat.leb_le in E1, E2.
  rewrite nat_ascii_embedding by lia.
  apply andb_false_iff. left. apply Nat.leb_gt. lia.
Qed.

Lemma upper_byte_ascii c :
  (nat_of_ascii c < 128)%nat -> (nat_of_ascii (upper_byte c) < 128)%nat.
Proof.
  intros Hc. unfold upper_byte. destruct (is_lower c); [|done].
  rewrite nat_ascii_embedding by lia. lia.
Qed.

Lemma upper_ascii_facts s :
  is_ascii s = true ->
  is_ascii (upper_ascii s) = true /\ has_lower (upper_ascii s) = false.
Proof.
  induction s as [|c s IH]; simpl; [done|].
  intros H. apply andb_true_iff in H as [Hc Hs]. apply Nat.ltb_lt in Hc.
  destruct (IH Hs) as [IH1 IH2]. rewrite IH1, IH2.
  rewrite upper_byte_not_lower by done.
  split; [|done]. apply andb_true_iff. split; [|done].
  apply Nat.ltb_lt. by apply upper_byte_ascii.
Qed.

Lemma upper_ascii_fixed s : has_lower s = false -> upper_ascii s = s.
Proof.
  induction s as [|c s IH]; simpl; [done|].
  intros H. apply orb_false_iff in H as [Hc Hs].
  unfold upper_byte. rewrite Hc, IH by done. done.
Qed.

Variable ToUpper : string -> string.

(** X8: [processData] fails exactly on the empty input, with the message
    "empty input provided" and the empty result; on any other input the
    error is nil and the result is what [strings.ToUpper] returns. *)
Theorem processData_error (input : string) :
  (snd (processData ToUpper input) <> None <-> input = EmptyString)
  /\ (input = EmptyString ->
      processData ToUpper input = (EmptyString, Some "empty input provided"))
  /\ (input <> EmptyString ->
      processData ToUpper input = (ToUpper input, None)).
Proof.
  unfold processData.
  destruct (String.length input =? 0)%nat eqn:E.
  - apply length_0_empty in E as ->. repeat split; try done.
  - assert (input <> EmptyString) as Hne.
    { intros ->. discriminate. }
    repeat split; try done.
Qed.

(** On ASCII, [strings.ToUpper] maps [a]..[z] to [A]..[Z] byte by byte. *)
Hypothesis ToUpper_ascii :
  forall s, is_ascii s = true -> ToUpper s = upper_ascii s.

(** X9: on a non-empty ASCII input [processData] succeeds with a result of
    the same length that is ASCII and has no letter from [a] to [z] left, and
    passing that result in again succeeds and returns it unchanged. *)
Theorem processData_ascii (input : string) :
  input <> EmptyString ->
  is_ascii input = true ->
  exists result,
    processData ToUpper input = (result, None)
    /\ result = upper_ascii input
    /\ String.length result = String.length input
    /\ is_ascii result = true
    /\ has_lower result = false
    /\ processData ToUpper result = (result, None).
Proof using ToUpper_ascii.
  intros Hne Hascii. exists (upper_ascii input).
  destruct (upper_ascii_facts input Hascii) as [Ha Hl].
  assert (Hlen : String.length (upper_ascii input) = String.length input)
    by apply upper_ascii_length.
  assert (Hne' : (String.length input =? 0)%nat = false).
  { destruct input; [done|reflexivity]. }
  unfold processData. rewrite Hlen, Hne'.
  rewrite !ToUpper_ascii by done.
  rewrite (upper_ascii_fixed (upper_ascii input)) by done.
  repeat split; done.
Qed.

End FunctionsMore.

Lemma processData_error_witness :
  Functions.processData Functions.upper_ascii EmptyString
  = (EmptyString, Some "empty input provided"%string).
Proof.
  exact (proj1 (proj2 (processData_error Functions.upper_ascii EmptyString)) eq_refl).
Defined.

Lemma processData_ascii_witness :
  "go 1.23"%string <> EmptyString
  /\ Functions.is_ascii "go 1.23" = true
  /\ exists result,
       Functions.processData Functions.upper_ascii "go 1.23" = (result, None)
       /\ result = Functions.upper_ascii "go 1.23"
       /\ String.length result = String.length "go 1.23"
       /\ Functions.is_ascii result = true
       /\ Functions.has_lower result = false
       /\ Functions.processData Functions.upper_ascii result = (result, None).
Proof.
  assert (Hne : "go 1.23"%string <> EmptyString) by discriminate.
  assert (Ha : Functions.is_ascii "go 1.23" = true) by reflexivity.
  assert (HT : forall s, Functions.is_ascii s = true ->
                         Functions.upper_ascii s = Functions.upper_ascii s)
    by reflexivity.
  split; [exact Hne|]. split; [exact Ha|].
  exact (processData_ascii Functions.upper_ascii HT "go 1.23" Hne Ha).
Defined.

(** ** The "Channels" section: one producer, one consumer *)

Section PipelineMore.

Import Pipeline PipelineSpec.
Local Open Scope string_scope.
Local Open Scope list_scope.

Lemma receive_line msg out : receive msg out = out ++ [received msg].
Proof. reflexivity. Qed.

Lemma received_result i : received (result_msg i) = received_line i.
Proof. reflexivity. Qed.

Lemma seqZ_last k : 0 <= k -> seqZ 1 (k + 1) = seqZ 1 k ++ [k + 1].
Proof.
  intros Hk. rewrite seqZ_app by lia.
  rewrite (seqZ_cons (1 + k) 1) by lia.
  rewrite (seqZ_nil (Z.succ (1 + k)) (Z.pred 1)) by lia.
  do 2 f_equal. lia.
Qed.

Ltac pinv_unfold :=
  unfold producer_inv, produced, finished_range, make_chan in *; simpl in *.

Ltac pstep_unfold H :=
  unfold pstep in H; simpl in H;
  unfold producer, consumer, chan_send, chan_range, chan_close in H;
  simpl in H.

Variable n : Z.
Variable cap : nat.

(** The loop bound is a count that [i++] can pass. *)
Hypothesis Hn : 0 <= n < GoInt.max_int.

Lemma pinv_init : pinv n cap pinit.
Proof. split; pinv_unfold; fin. Qed.

Lemma pinv_step l s s' :
  pinv n cap s -> pstep n cap l s = Some s' -> pinv n cap s'.
Proof using Hn.
  intros [Hp Hpc Hex Hfifo Hcap] Hstep.
  destruct s as [pp pk [buf closed] out pn].
  simpl in *. subst pn. pinv_unfold. pstep_unfold Hstep.
  destruct l.
  - (* the producer *)
    destruct pp as [|i| |]; simpl in *; try done.
    + destruct Hpc as (Hi & -> & ->). simpl in *.
      destruct (Z.leb_spec i n) as [Hle|Hgt].
      * assert (Hincr : GoInt.incr i = i + 1)
          by (apply incr_no_overflow;
              unfold GoInt.min_int, GoInt.max_int in *; lia).
        assert (Hseq : seqZ 1 (i + 1 - 1) = seqZ 1 (i - 1) ++ [i]).
        { replace (i + 1 - 1) with (i - 1 + 1) by lia.
          rewrite seqZ_last by lia. do 2 f_equal. lia. }
        destruct (Nat.ltb_spec (length buf) cap).
        -- simplify_eq. rewrite Hincr.
           split; pinv_unfold; fin.
           ++ rewrite Hseq, !map_app, app_assoc, Hfifo. done.
           ++ rewrite length_app. simpl. lia.
        -- destruct (Nat.eqb_spec cap 0); simpl in Hstep; [|done].
           simplify_eq. rewrite Hincr.
           assert (buf = []) as -> by (destruct buf; [done|simpl in *; lia]).
           split; pinv_unfold; fin.
           rewrite app_nil_r in Hfifo.
           rewrite receive_line, app_nil_r, Hseq, map_app, Hfifo. done.
      * simplify_eq. split; pinv_unfold; fin.
        by replace n with (i - 1) by lia.
    + destruct Hpc as [-> ->]. simplify_eq.
      split; pinv_unfold; fin.
  - (* the consumer *)
    destruct pk; simpl in *; try done.
    + destruct pp; try (by destruct Hpc as (_ & ? & _)); try (by destruct Hpc).
      destruct Hpc as (_ & Hch & ->). simplify_eq.
      split; pinv_unfold; fin.
    + destruct buf as [|v rest]; [destruct closed|]; simplify_eq.
      * assert (pp = PExit) as ->
          by (destruct pp; try done; intuition congruence).
        split; pinv_unfold; fin.
      * split; pinv_unfold; fin.
        -- destruct pp; try done; intuition congruence.
        -- by rewrite receive_line, <- app_assoc.
Qed.

Lemma pinv_run sched : forall s s',
  pinv n cap s -> prun n cap sched s = Some s' -> pinv n cap s'.
Proof using Hn.
  induction sched as [|l sched IH]; intros s s' Hs Hrun; simpl in Hrun.
  - by simplify_eq.
  - destruct (pstep n cap l s) as [s1|] eqn:Hstep; [|done].
    eauto using pinv_step.
Qed.

Lemma pinv_reachable sched s : prun n cap sched pinit = Some s -> pinv n cap s.
Proof using Hn. apply pinv_run, pinv_init. Qed.

(** The sends completed so far are printed or buffered. *)
Lemma pinv_counts s :
  pinv n cap s ->
  0 <= produced n s <= n
  /\ Z.of_nat (length (ps_stdout s)) + Z.of_nat (length (ch_buf (ps_ch s)))
     = produced n s.
Proof using Hn.
  intros [Hp Hpc Hex Hfifo Hcap].
  assert (Hr : 0 <= produced n s <= n).
  { unfold producer_inv, produced in *. destruct (ps_producer s); lia. }
  split; [done|].
  apply (f_equal length) in Hfifo.
  rewrite length_app, !length_map, length_seqZ in Hfifo. lia.
Qed.

(** What is printed and what is buffered, in terms of the loop counter. *)
Lemma pinv_split s :
  pinv n cap s ->
  let k := Z.of_nat (length (ps_stdout s)) in
  ps_stdout s = map received_line (seqZ 1 k)
  /\ map received (ch_buf (ps_ch s))
     = map received_line (seqZ (1 + k) (Z.of_nat (length (ch_buf (ps_ch s))))).
Proof using Hn.
  intros Hs. destruct (pinv_counts s Hs) as [Hr Hlen].
  pose proof (pinv_fifo _ _ _ Hs) as Hfifo. cbv zeta.
  set (k := Z.of_nat (length (ps_stdout s))) in *.
  set (b := Z.of_nat (length (ch_buf (ps_ch s)))) in *.
  replace (produced n s) with (k + b) in Hfifo by lia.
  rewrite seqZ_app, map_app in Hfifo by lia.
  apply app_inj_1 in Hfifo; [done|].
  rewrite length_map, length_seqZ. lia.
Qed.

Lemma pprogress s :
  pinv n cap s -> ps_consumer s <> KExit ->
  exists l s', pstep n cap l s = Some s'.
Proof using Hn.
  intros [Hp Hpc Hex Hfifo Hcap] Hk.
  destruct s as [pp pk [buf closed] out pn].
  pinv_unfold. subst pn.
  destruct pk; try done.
  - exists LConsumer. unfold pstep, consumer; simpl. eauto.
  - destruct buf as [|v rest];
      [|exists LConsumer; unfold pstep, consumer; simpl; eauto].
    destruct closed; [exists LConsumer; unfold pstep, consumer; simpl; eauto|].
    exists LProducer. unfold pstep, producer, chan_send, chan_close; simpl.
    destruct pp as [|i| |]; try (by destruct Hpc).
    + destruct (i <=? n)%Z; [|eauto].
      destruct (Nat.ltb_spec 0 cap); [eauto|].
      assert (cap = 0%nat) as -> by lia. simpl. eauto.
    + eauto.
Qed.

Lemma pbudget_init : pbudget n pinit = (2 * Z.to_nat n + 4)%nat.
Proof. unfold pbudget; simpl. lia. Qed.

Lemma pbudget_step l s s' :
  pinv n cap s -> pstep n cap l s = Some s' -> (pbudget n s' < pbudget n s)%nat.
Proof using Hn.
  intros Hs Hstep.
  pose proof (pinv_panic _ _ _ (pinv_step _ _ _ Hs Hstep)) as Hp'.
  destruct Hs as [Hp Hpc Hex Hfifo Hcap].
  destruct s as [pp pk [buf closed] out pn].
  simpl in *. subst pn. pinv_unfold. pstep_unfold Hstep. unfold pbudget.
  destruct l.
  - destruct pp as [|i| |]; simpl in *; try done.
    + destruct Hpc as (Hi & -> & ->). simpl in *.
      destruct (Z.leb_spec i n) as [Hle|Hgt].
      * assert (Hincr : GoInt.incr i = i + 1)
          by (apply incr_no_overflow;
              unfold GoInt.min_int, GoInt.max_int in *; lia).
        destruct (_ <? _)%nat.
        -- simplify_eq; simpl. rewrite Hincr, length_app. simpl. lia.
        -- destruct (_ && _); simplify_eq; simpl. rewrite Hincr. lia.
      * simplify_eq; simpl. lia.
    + destruct closed; simplify_eq; simpl in *; try done; lia.
  - destruct pk; simpl in *; try done.
    + assert (pp = PNone) as ->
        by (destruct pp; try done; intuition congruence).
      simplify_eq; simpl. lia.
    + destruct buf as [|v rest]; [destruct closed|]; simplify_eq; simpl; lia.
Qed.

Lemma pbudget_run sched : forall s s',
  pinv n cap s -> prun n cap sched s = Some s' ->
  (length sched + pbudget n s' <= pbudget n s)%nat.
Proof using Hn.
  induction sched as [|l sched IH]; intros s s' Hs Hrun; simpl in Hrun.
  - simplify_eq. simpl. lia.
  - destruct (pstep n cap l s) as [s1|] eqn:Hstep; [|done].
    pose proof (pbudget_step _ _ _ Hs Hstep).
    pose proof (IH _ _ (pinv_step _ _ _ Hs Hstep) Hrun). simpl. lia.
Qed.

Lemma prun_app sched1 sched2 s :
  prun n cap (sched1 ++ sched2) s
  = match prun n cap sched1 s with
    | Some s1 => prun n cap sched2 s1
    | None => None
    end.
Proof.
  revert s. induction sched1 as [|l sched1 IH]; intros s; simpl; [done|].
  destruct (pstep n cap l s); [apply IH|done].
Qed.

Lemma pcompletion s :
  pinv n cap s ->
  exists sched s', prun n cap sched s = Some s' /\ finished_range s'.
Proof using Hn.
  remember (pbudget n s) as b eqn:Hb. revert s Hb.
  induction (lt_wf b) as [b _ IH]. intros s -> Hs.
  assert (ps_consumer s = KExit \/ ps_consumer s <> KExit) as [Hexit|Hk]
    by (destruct (ps_consumer s); (by left) || (by right)).
  - exists [], s. done.
  - destruct (pprogress s Hs Hk) as (l & s1 & Hstep).
    destruct (IH (pbudget n s1) (pbudget_step _ _ _ Hs Hstep) s1 eq_refl
                (pinv_step _ _ _ Hs Hstep)) as (sched & s' & Hrun & Hexit).
    exists (l :: sched), s'. simpl. rewrite Hstep. done.
Qed.

Lemma pexit_state s :
  pinv n cap s -> finished_range s ->
  ps_producer s = PExit /\ ps_ch s = Chan [] true
  /\ ps_stdout s = map received_line (seqZ 1 n).
Proof using Hn.
  intros [Hp Hpc Hex Hfifo Hcap] Hk.
  destruct s as [pp pk [buf closed] out pn].
  pinv_unfold. subst pk. destruct (Hex eq_refl) as [-> ->].
  destruct Hpc as [_ ->]. by rewrite app_nil_r in Hfifo.
Qed.

Lemma pexit_terminal s l :
  pinv n cap s -> finished_range s -> pstep n cap l s = None.
Proof using Hn.
  intros Hs Hk. destruct (pexit_state s Hs Hk) as (Hpp & _).
  unfold pstep. destruct (ps_panic s); [done|].
  destruct l; [unfold producer; by rewrite Hpp | unfold consumer; by rewrite Hk].
Qed.

Variable sched : list plabel.
Variable s : pstate.
Hypothesis Hrun : prun n cap sched pinit = Some s.

(** X10: the consumer prints the results in the order the producer sent
    them, none skipped and none twice, however the two goroutines are
    scheduled: at every point of a run the lines printed are the lines of
    1, 2, ..., k for the k results received, the messages in the channel are
    those of the next ones, and when the range loop has ended the lines are
    exactly those of 1 to N. *)
Theorem channels_in_order :
  let k := Z.of_nat (length (ps_stdout s)) in
  k <= n
  /\ ps_stdout s = map received_line (seqZ 1 k)
  /\ map received (ch_buf (ps_ch s))
     = map received_line (seqZ (1 + k) (Z.of_nat (length (ch_buf (ps_ch s)))))
  /\ (finished_range s -> ps_stdout s = map received_line (seqZ 1 n)).
Proof using Hn Hrun.
  pose proof (pinv_reachable _ _ Hrun) as Hs.
  destruct (pinv_counts s Hs) as [Hr Hlen].
  destruct (pinv_split s Hs) as [Hout Hbuf].
  cbv zeta. split; [lia|]. split; [done|]. split; [done|].
  intros Hk. by destruct (pexit_state s Hs Hk) as (_ & _ & ->).
Qed.

(** X11: the producer and the consumer never deadlock and never panic:
    every run takes at most 2N+4 steps, no send meets a closed channel and
    the channel is closed once; until the range loop has ended some goroutine
    can move and the run extends to one where it has ended; then the
    producer has returned, the channel is closed and empty, and nothing
    moves. *)
Theorem channels_terminate :
  (length sched <= 2 * Z.to_nat n + 4)%nat
  /\ ps_panic s = false
  /\ (~ finished_range s -> exists l s', pstep n cap l s = Some s')
  /\ (exists sched' s',
        prun n cap (sched ++ sched') pinit = Some s' /\ finished_range s')
  /\ (finished_range s ->
      ps_producer s = PExit /\ ps_ch s = Chan [] true
      /\ forall l, pstep n cap l s = None).
Proof using Hn Hrun.
  pose proof (pinv_reachable _ _ Hrun) as Hs.
  split.
  { pose proof (pbudget_run _ _ _ pinv_init Hrun) as H.
    rewrite pbudget_init in H. lia. }
  split; [by apply (pinv_panic _ _ _ Hs)|].
  split; [by apply pprogress|].
  split.
  { destruct (pcompletion s Hs) as (sched' & s' & Hrun' & Hk).
    exists sched', s'. by rewrite prun_app, Hrun. }
  intros Hk. destruct (pexit_state s Hs Hk) as (Hpp & Hch & _).
  split; [done|]. split; [done|]. intros l. by apply pexit_terminal.
Qed.

(** X12: when the capacity is at least the number of results, as with 5
    results on a channel of capacity 10, the producer never waits for the
    consumer: once started it can take its next step in every state until it
    has returned, and the channel then never holds more than N messages. *)
Theorem producer_never_blocks :
  n <= Z.of_nat cap ->
  Z.of_nat (length (ch_buf (ps_ch s))) <= n
  /\ (ps_producer s <> PNone -> ps_producer s <> PExit ->
      exists s', pstep n cap LProducer s = Some s' /\ ps_panic s' = false).
Proof using Hn Hrun.
  intros Hcapn.
  pose proof (pinv_reachable _ _ Hrun) as Hs.
  destruct (pinv_counts s Hs) as [Hr Hlen].
  split; [lia|]. intros Hstarted Hgoing.
  assert (exists s', pstep n cap LProducer s = Some s') as [s' Hstep].
  { destruct Hs as [Hp Hpc Hex Hfifo Hcap].
    destruct s as [pp pk [buf closed] out pn].
    pinv_unfold. subst pn.
    unfold pstep, producer, chan_send, chan_close; simpl.
    destruct pp as [|i| |]; try done.
    - destruct Hpc as (Hi & -> & ->).
      destruct (Z.leb_spec i n); [|eauto].
      destruct (Nat.ltb_spec (length buf) cap); [eauto|lia].
    - destruct Hpc as [-> ->]. eauto. }
  exists s'. split; [done|].
  by apply (pinv_panic _ _ _ (pinv_step _ _ _ Hs Hstep)).
Qed.

End PipelineMore.

Lemma channels_in_order_witness :
  0 <= 5 < GoInt.max_int
  /\ Pipeline.prun 5 10 PipelineSpec.sched_fill Pipeline.pinit
     = Some PipelineSpec.final_channels
  /\ Pipeline.ps_stdout PipelineSpec.final_channels
     = map PipelineSpec.received_line [1; 2; 3; 4; 5].
Proof.
  assert (Hn : 0 <= 5 < GoInt.max_int) by (unfold GoInt.max_int; lia).
  assert (Hrun : Pipeline.prun 5 10 PipelineSpec.sched_fill Pipeline.pinit
                 = Some PipelineSpec.final_channels) by (vm_compute; reflexivity).
  split; [exact Hn|]. split; [exact Hrun|].
  destruct (channels_in_order 5 10 Hn _ _ Hrun) as (_ & _ & _ & H).
  apply H. reflexivity.
Defined.

Lemma channels_terminate_witness :
  0 <= 5 < GoInt.max_int
  /\ Pipeline.prun 5 10 PipelineSpec.sched_fill Pipeline.pinit
     = Some PipelineSpec.final_channels
  /\ (length PipelineSpec.sched_fill <= 2 * Z.to_nat 5 + 4)%nat.
Proof.
  assert (Hn : 0 <= 5 < GoInt.max_int) by (unfold GoInt.max_int; lia).
  assert (Hrun : Pipeline.prun 5 10 PipelineSpec.sched_fill Pipeline.pinit
                 = Some PipelineSpec.final_channels) by (vm_compute; reflexivity).
  split; [exact Hn|]. split; [exact Hrun|].
  exact (proj1 (channels_terminate 5 10 Hn _ _ Hrun)).
Defined.

Lemma producer_never_blocks_witness :
  0 <= 5 < GoInt.max_int
  /\ Pipeline.prun 5 10 [Pipeline.LConsumer; Pipeline.LProducer] Pipeline.pinit
     = Some (Pipeline.PState (Pipeline.PLoop 2) Pipeline.KRange
               (Overview.Chan [Pipeline.result_msg 1] false) [] false)
  /\ 5 <= Z.of_nat 10
  /\ exists s',
       Pipeline.pstep 5 10 Pipeline.LProducer
         (Pipeline.PState (Pipeline.PLoop 2) Pipeline.KRange
            (Overview.Chan [Pipeline.result_msg 1] false) [] false) = Some s'
       /\ Pipeline.ps_panic s' = false.
Proof.
  assert (Hn : 0 <= 5 < GoInt.max_int) by (unfold GoInt.max_int; lia).
  assert (Hrun : Pipeline.prun 5 10 [Pipeline.LConsumer; Pipeline.LProducer]
                   Pipeline.pinit
                 = Some (Pipeline.PState (Pipeline.PLoop 2) Pipeline.KRange
                           (Overview.Chan [Pipeline.result_msg 1] false) [] false))
    by (vm_compute; reflexivity).
  assert (Hc : 5 <= Z.of_nat 10) by (simpl; lia).
  split; [exact Hn|]. split; [exact Hrun|]. split; [exact Hc|].
  apply (proj2 (producer_never_blocks 5 10 Hn _ _ Hrun Hc)); discriminate.
Defined.

(** ** The "Language Overview" program: what it never does *)

Section OverviewMore.

Local Open Scope list_scope.

(** A worker still at its send is not among the finished ones. *)
Lemma finished_lt (ws : list (Z * worker_pc)) (k : nat) id :
  ws !! k = Some (id, WSend) -> (length (finished ws) < length ws)%nat.
Proof.
  intros Hk. destruct (update_split ws k id WSend WSend Hk) as (ws1 & ws2 & -> & _).
  rewrite finished_app, !length_app. simpl.
  pose proof (finished_length ws1). pose proof (finished_length ws2). lia.
Qed.

Variable n : Z.
Variable cap : nat.
Hypothesis Hn : 0 <= n <= GoInt.max_int32.

Variable sched : list label.
Variable s : state.
Hypothesis Hrun : run n cap sched init = Some s.

(** X13: no goroutine of the program can panic.  In every state of every
    run the panic flag is down, a worker that still has to send finds the
    channel open, the closing goroutine at [close(messages)] finds it open,
    and a worker at [wg.Done()] finds the counter at least 1; so whichever
    goroutine the scheduler picks, its step does not panic. *)
Theorem overview_never_panics :
  st_panic s = false
  /\ (forall k id, st_workers s !! k = Some (id, WSend) ->
        ch_closed (st_ch s) = false)
  /\ (st_closer s = CClose -> ch_closed (st_ch s) = false)
  /\ (forall k id, st_workers s !! k = Some (id, WDone) -> 1 <= st_wg s)
  /\ (forall l s', step n cap l s = Some s' -> st_panic s' = false).
Proof using Hn Hrun.
  pose proof (inv_reachable n cap Hn _ _ Hrun) as Hs.
  destruct Hs as [Hp Hids Hst Hm Hc Hwg Hsent Hfifo Hcap] eqn:E. clear E.
  split; [done|]. split; [|split; [|split]].
  - intros k id Hk.
    pose proof (live_lookup _ _ _ _ Hk ltac:(done)) as Hlive.
    unfold closer_inv in Hc.
    destruct (ch_closed (st_ch s)); [|done].
    destruct (st_closer s); try done; destruct Hc; lia.
  - intros Hcl. unfold closer_inv in Hc. rewrite Hcl in Hc. by destruct Hc.
  - intros k id Hk.
    pose proof (live_lookup _ _ _ _ Hk ltac:(done)) as Hlive.
    unfold adding in Hwg. destruct (st_main s); lia.
  - intros l s' Hstep.
    by apply (inv_panic _ _ _ (inv_step n cap Hn _ _ _
                 (inv_reachable n cap Hn _ _ Hrun) Hstep)).
Qed.

(** X14: the wait group counts the workers that have not returned.  The
    counter is the number of started workers that have not returned, plus
    one while [main] stands between [wg.Add(1)] and the [go] statement; it
    stays between 0 and N; and the closing goroutine gets past [wg.Wait()]
    only when all N workers were started and all have returned. *)
Theorem wait_group_counts :
  st_wg s = Z.of_nat (live (st_workers s)) + adding s
  /\ 0 <= st_wg s <= n
  /\ (st_closer s = CClose \/ st_closer s = CExit ->
      started s = n /\ live (st_workers s) = 0%nat /\ st_wg s = 0).
Proof using Hn Hrun.
  pose proof (inv_reachable n cap Hn _ _ Hrun) as Hs.
  destruct Hs as [Hp Hids Hst Hm Hc Hwg Hsent Hfifo Hcap].
  pose proof (live_length (st_workers s)) as Hll.
  unfold main_inv, closer_inv, adding, started in *.
  split; [done|]. split.
  - destruct (st_main s); lia.
  - intros Hcl.
    assert (live (st_workers s) = 0%nat) as Hlive
      by (destruct Hcl as [Hcl | Hcl]; rewrite Hcl in Hc; by destruct Hc).
    assert (st_closer s <> CNone) as Hne
      by (destruct Hcl as [Hcl | Hcl]; rewrite Hcl; done).
    destruct (st_main s); try (exfalso; intuition congruence);
      (split; [by destruct Hm|split; [done|lia]]).
Qed.

(** X15: with a buffer as large as the number of workers, as with 3
    workers on capacity 3, no worker ever waits at its send: whenever a
    worker still has to send there is room in the buffer and its step
    succeeds. *)
Theorem send_never_blocks (k : nat) (id : Z) :
  n <= Z.of_nat cap ->
  st_workers s !! k = Some (id, WSend) ->
  (length (ch_buf (st_ch s)) < cap)%nat
  /\ exists s', step n cap (LWorker k) s = Some s'
                /\ st_workers s' !! k = Some (id, WDone)
                /\ st_sent s' = st_sent s ++ [id].
Proof using Hn Hrun.
  intros Hcapn Hk.
  pose proof (inv_reachable n cap Hn _ _ Hrun) as Hs.
  destruct Hs as [Hp Hids Hst Hm Hc Hwg Hsent Hfifo Hcap] eqn:E. clear E.
  pose proof (finished_lt _ _ _ Hk) as Hlt.
  pose proof (live_lookup _ _ _ _ Hk ltac:(done)) as Hlive.
  assert (Hroom : (length (ch_buf (st_ch s)) < cap)%nat).
  { apply (f_equal length) in Hfifo.
    rewrite length_app, !length_map, Hsent in Hfifo.
    unfold started in Hst. lia. }
  split; [done|].
  assert (Hopen : ch_closed (st_ch s) = false).
  { unfold closer_inv in Hc. destruct (ch_closed (st_ch s)); [|done].
    destruct (st_closer s); try done; destruct Hc; lia. }
  unfold step, worker, chan_send. rewrite Hp, Hk, Hopen.
  apply Nat.ltb_lt in Hroom. rewrite Hroom.
  eexists. split; [reflexivity|]. simpl. split; [|done].
  apply list_lookup_insert_eq. by eapply lookup_lt_Some.
Qed.

End OverviewMore.

Lemma overview_never_panics_witness :
  0 <= 3 <= GoInt.max_int32
  /\ run 3 3 sched_312 init = Some final_312
  /\ st_panic final_312 = false.
Proof.
  assert (Hn : 0 <= 3 <= GoInt.max_int32) by (unfold GoInt.max_int32; lia).
  assert (Hrun : run 3 3 sched_312 init = Some final_312)
    by (vm_compute; reflexivity).
  split; [exact Hn|]. split; [exact Hrun|].
  exact (proj1 (overview_never_panics 3 3 Hn _ _ Hrun)).
Defined.

Lemma wait_group_counts_witness :
  0 <= 3 <= GoInt.max_int32
  /\ run 3 3 sched_312 init = Some final_312
  /\ 0 <= st_wg final_312 <= 3.
Proof.
  assert (Hn : 0 <= 3 <= GoInt.max_int32) by (unfold GoInt.max_int32; lia).
  assert (Hrun : run 3 3 sched_312 init = Some final_312)
    by (vm_compute; reflexivity).
  split; [exact Hn|]. split; [exact Hrun|].
  exact (proj1 (proj2 (wait_group_counts 3 3 Hn _ _ Hrun))).
Defined.

Lemma send_never_blocks_witness :
  0 <= 3 <= GoInt.max_int32
  /\ run 3 3 [LMain; LMain] init
     = Some (State (MLoop 2) [(1, WSend)] CNone (Chan [] false) 1 [] false [])
  /\ 3 <= Z.of_nat 3
  /\ (length (A := string) [] < 3)%nat.
Proof.
  assert (Hn : 0 <= 3 <= GoInt.max_int32) by (unfold GoInt.max_int32; lia).
  assert (Hrun : run 3 3 [LMain; LMain] init
                 = Some (State (MLoop 2) [(1, WSend)] CNone (Chan [] false) 1 []
                           false [])) by (vm_compute; reflexivity).
  assert (Hc : 3 <= Z.of_nat 3) by (simpl; lia).
  split; [exact Hn|]. split; [exact Hrun|]. split; [exact Hc|].
  exact (proj1 (send_never_blocks 3 3 Hn _ _ Hrun 0%nat 1 Hc eq_refl)).
Defined.
